(** * DPDK x86 power intrinsics: UMONITOR / UMWAIT / TPAUSE

    A shallow embedding of [lib/librte_eal/x86/rte_power_intrinsics.c].

    The C functions are written as programs over a small set of atomic
    actions: one per access to the shared state and one per hardware
    instruction.  A program is run to its end ([run]), or one action at a
    time ([step], [reach]), or one action at a time with the other lcores
    acting in between ([reach_among], [sys_step]), so that the result of a
    call, the states it passes through and what the threads do to each
    other can all be talked about.

    What is not in the model: time (UMWAIT and TPAUSE are events, they come
    back), faults of the memory (every address can be read and written), and
    the hardware monitor other than through the events UMONITOR and
    UMWAIT. *)

From Stdlib Require Import ZArith List Lia Bool.
From stdpp Require Import base list.
From coqutil Require Import Byte Word.LittleEndianList.
Import ListNotations.
Local Open Scope Z_scope.

(** ** Constants *)

(** [errno] values (Linux numbering). *)
Definition ENOTSUP : Z := 95.
Definition EINVAL : Z := 22.

(** [(uint32_t) z] *)
Definition to_uint32 (z : Z) : Z := z mod 2 ^ 32.

(** ** Data *)

(** [struct rte_power_monitor_cond], declared in [rte_power_intrinsics.h];
    the fields are the ones the code reads: [addr] is a pointer (0 is
    [NULL]), [val] and [mask] are [uint64_t], [data_sz] is [uint8_t]. *)
Record rte_power_monitor_cond := {
  addr : Z;
  val : Z;
  mask : Z;
  data_sz : Z
}.

(** [struct rte_cpu_intrinsics], filled by
    [rte_cpu_get_intrinsics_support]. *)
Record rte_cpu_intrinsics := {
  power_monitor : bool;
  power_pause : bool
}.

(** [struct power_wait_status]: [lock] is the spinlock ([true] when
    taken), [monitor_addr] is 0 ([NULL]) if not currently sleeping. *)
Record power_wait_status := {
  lock : bool;
  monitor_addr : Z
}.

(** Byte-addressed memory, little endian as on x86. *)
Definition mem : Type := Z -> byte.

(** The shared state of the process: the two file-scope statics, the
    memory the watched addresses point into, and what the platform answers
    to the capability query. *)
Record state := {
  wait_supported : bool;
  wait_status : list power_wait_status;
  memory : mem;
  cpu : rte_cpu_intrinsics
}.

Definition set_wait_supported (b : bool) (s : state) : state :=
  {| wait_supported := b; wait_status := wait_status s;
     memory := memory s; cpu := cpu s |}.

Definition set_wait_status (l : list power_wait_status) (s : state) : state :=
  {| wait_supported := wait_supported s; wait_status := l;
     memory := memory s; cpu := cpu s |}.

Definition set_memory (m : mem) (s : state) : state :=
  {| wait_supported := wait_supported s; wait_status := wait_status s;
     memory := m; cpu := cpu s |}.

Definition set_lock (b : bool) (w : power_wait_status) : power_wait_status :=
  {| lock := b; monitor_addr := monitor_addr w |}.

Definition set_monitor_addr (a : Z) (w : power_wait_status) : power_wait_status :=
  {| lock := lock w; monitor_addr := a |}.

(** ** Memory accesses *)

Fixpoint load_bytes (m : mem) (p : Z) (n : nat) : list byte :=
  match n with
  | O => []
  | S n' => m p :: load_bytes m (p + 1) n'
  end.

Fixpoint store_bytes (m : mem) (p : Z) (bs : list byte) : mem :=
  match bs with
  | [] => m
  | b :: bs' => store_bytes (fun x => if x =? p then b else m x) (p + 1) bs'
  end.

(** [*(const volatile uintN_t * )p] for N = 8 * n *)
Definition load (m : mem) (p : Z) (n : nat) : Z :=
  le_combine (load_bytes m p n).

Definition store (m : mem) (p : Z) (n : nat) (v : Z) : mem :=
  store_bytes m p (le_split n v).

(** ** Actions and programs *)

(** The atomic actions of the code.  The index is the type of the value an
    action gives back. *)
Inductive action : Type -> Type :=
| rte_lcore_id : action N
| rte_cpu_get_intrinsics_support : action rte_cpu_intrinsics
| load_wait_supported : action bool
| store_wait_supported (b : bool) : action unit
| rte_spinlock_lock (i : nat) : action unit
| rte_spinlock_unlock (i : nat) : action unit
| load_monitor_addr (i : nat) : action Z
| store_monitor_addr (i : nat) (a : Z) : action unit
| umonitor (a : Z) : action unit
| umwait (ctl tsc_l tsc_h : Z) : action unit
| tpause (ctl tsc_l tsc_h : Z) : action unit
| volatile_load (p : Z) (n : nat) : action Z
| atomic_load_n (p : Z) : action Z
| atomic_compare_exchange_n (p expected desired : Z) : action (bool * Z)
| RTE_ASSERT (b : bool) : action unit.

(** An action together with what it gave back. *)
Inductive event : Type :=
| Ev {X : Type} (e : action X) (x : X).

Inductive prog (A : Type) : Type :=
| Ret (a : A)
| Vis {X : Type} (e : action X) (k : X -> prog A).

Arguments Ret {A} a.
Arguments Vis {A X} e k.

Fixpoint bind {A B : Type} (p : prog A) (f : A -> prog B) : prog B :=
  match p with
  | Ret a => f a
  | Vis e k => Vis e (fun x => bind (k x) f)
  end.

Definition call {X : Type} (e : action X) : prog X := Vis e Ret.

Declare Scope prog_scope.
Delimit Scope prog_scope with prog.
Notation "x <- p ;; q" := (bind p (fun x => q))
  (at level 100, p at next level, right associativity) : prog_scope.
Notation "p ;; q" := (bind p (fun _ => q))
  (at level 100, right associativity) : prog_scope.
Local Open Scope prog_scope.

(** What one action does.  [Spin]: the action cannot complete in this state
    (the spinlock is taken).  [Abort]: an assertion failed, or an array was
    indexed out of its bounds. *)
Inductive outcome (X : Type) : Type :=
| Ok (x : X) (s : state)
| Spin
| Abort.

Arguments Ok {X} x s.
Arguments Spin {X}.
Arguments Abort {X}.

Definition with_record {X : Type} (i : nat) (s : state)
    (f : power_wait_status -> outcome X) : outcome X :=
  match wait_status s !! i with
  | Some w => f w
  | None => Abort
  end.

Definition put_record (i : nat) (w : power_wait_status) (s : state) : state :=
  set_wait_status (<[i := w]> (wait_status s)) s.

(** [self] is the value of the per-thread variable [rte_lcore_id] reads. *)
Definition exec (self : N) {X : Type} (e : action X) (s : state) : outcome X :=
  match e in action X return outcome X with
  | rte_lcore_id => Ok self s
  | rte_cpu_get_intrinsics_support => Ok (cpu s) s
  | load_wait_supported => Ok (wait_supported s) s
  | store_wait_supported b => Ok tt (set_wait_supported b s)
  | rte_spinlock_lock i =>
      with_record i s (fun w =>
        if lock w then Spin else Ok tt (put_record i (set_lock true w) s))
  | rte_spinlock_unlock i =>
      with_record i s (fun w => Ok tt (put_record i (set_lock false w) s))
  | load_monitor_addr i =>
      with_record i s (fun w => Ok (monitor_addr w) s)
  | store_monitor_addr i a =>
      with_record i s (fun w => Ok tt (put_record i (set_monitor_addr a w) s))
  | umonitor _ => Ok tt s
  | umwait _ _ _ => Ok tt s
  | tpause _ _ _ => Ok tt s
  | volatile_load p n => Ok (load (memory s) p n) s
  | atomic_load_n p => Ok (load (memory s) p 8) s
  | atomic_compare_exchange_n p expected desired =>
      let cur := load (memory s) p 8 in
      if cur =? expected
      then Ok (true, expected) (set_memory (store (memory s) p 8 desired) s)
      else Ok (false, cur) s
  | RTE_ASSERT b => if b then Ok tt s else Abort
  end.

(** Running a program to its end; the events are listed in the order in
    which they happened. *)
Inductive result (A : Type) : Type :=
| Done (a : A) (s : state) (tr : list event)
| Spinning (s : state) (tr : list event)
| Aborted (s : state) (tr : list event).

Arguments Done {A} a s tr.
Arguments Spinning {A} s tr.
Arguments Aborted {A} s tr.

Definition log {A : Type} (ev : event) (r : result A) : result A :=
  match r with
  | Done a s tr => Done a s (ev :: tr)
  | Spinning s tr => Spinning s (ev :: tr)
  | Aborted s tr => Aborted s (ev :: tr)
  end.

Fixpoint run (self : N) {A : Type} (p : prog A) (s : state) : result A :=
  match p with
  | Ret a => Done a s []
  | Vis e k =>
      match exec self e s with
      | Ok x s' => log (Ev e x) (run self (k x) s')
      | Spin => Spinning s []
      | Abort => Aborted s []
      end
  end.

(** ** The code *)

(** [__umwait_wakeup]: trigger a write but don't change the value. *)
Definition __umwait_wakeup (addr : Z) : prog unit :=
  val <- call (atomic_load_n addr) ;;
  call (atomic_compare_exchange_n addr val val) ;;
  Ret tt.

(** [__get_umwait_val]: the [switch] on [sz], with [sizeof] written out in
    bytes. *)
Definition __get_umwait_val (p : Z) (sz : Z) : prog Z :=
  if sz =? 1 then call (volatile_load p 1)
  else if sz =? 2 then call (volatile_load p 2)
  else if sz =? 4 then call (volatile_load p 4)
  else if sz =? 8 then call (volatile_load p 8)
  else
    (* shouldn't happen *)
    call (RTE_ASSERT false) ;;
    Ret 0.

Definition __check_val_size (sz : Z) : Z :=
  if sz =? 1 then 0
  else if sz =? 2 then 0
  else if sz =? 4 then 0
  else if sz =? 8 then 0
  else
    (* unexpected size *)
    -1.

Section Intrinsics.

(** The size of the [wait_status] array, from the build configuration. *)
Variable RTE_MAX_LCORE : N.

(** The label [end] of [rte_power_monitor]: erase sleep address. *)
Definition rte_power_monitor_end (s : nat) : prog Z :=
  call (rte_spinlock_lock s) ;;
  call (store_monitor_addr s 0) ;;
  call (rte_spinlock_unlock s) ;;
  Ret 0.

(** [pmc] is [None] for a [NULL] pointer. *)
Definition rte_power_monitor (pmc : option rte_power_monitor_cond)
    (tsc_timestamp : Z) : prog Z :=
  let tsc_l := to_uint32 tsc_timestamp in
  let tsc_h := to_uint32 (Z.shiftr tsc_timestamp 32) in
  lcore_id <- call rte_lcore_id ;;
  (* prevent user from running this instruction if it's not supported *)
  supported <- call load_wait_supported ;;
  if negb supported then Ret (- ENOTSUP) else
  (* prevent non-EAL thread from using this API *)
  if (RTE_MAX_LCORE <=? lcore_id)%N then Ret (- EINVAL) else
  match pmc with
  | None => Ret (- EINVAL)
  | Some pmc =>
  if __check_val_size (data_sz pmc) <? 0 then Ret (- EINVAL) else
  let s := N.to_nat lcore_id in
  (* update sleep address *)
  call (rte_spinlock_lock s) ;;
  call (store_monitor_addr s (addr pmc)) ;;
  (* set address for UMONITOR *)
  call (umonitor (addr pmc)) ;;
  (* now that we've put this address into monitor, we can unlock *)
  call (rte_spinlock_unlock s) ;;
  (* if we have a comparison mask, we might not need to sleep at all *)
  if negb (mask pmc =? 0) then
    cur_value <- __get_umwait_val (addr pmc) (data_sz pmc) ;;
    let masked := Z.land cur_value (mask pmc) in
    (* if the masked value is already matching, abort *)
    if masked =? val pmc then rte_power_monitor_end s
    else
      (* execute UMWAIT *)
      call (umwait 0 tsc_l tsc_h) ;;
      rte_power_monitor_end s
  else
    call (umwait 0 tsc_l tsc_h) ;;
    rte_power_monitor_end s
  end.

Definition rte_power_pause (tsc_timestamp : Z) : prog Z :=
  let tsc_l := to_uint32 tsc_timestamp in
  let tsc_h := to_uint32 (Z.shiftr tsc_timestamp 32) in
  (* prevent user from running this instruction if it's not supported *)
  supported <- call load_wait_supported ;;
  if negb supported then Ret (- ENOTSUP) else
  (* execute TPAUSE *)
  call (tpause 0 tsc_l tsc_h) ;;
  Ret 0.

Definition rte_power_intrinsics_init : prog unit :=
  i <- call rte_cpu_get_intrinsics_support ;;
  if power_monitor i && power_pause i
  then call (store_wait_supported true)
  else Ret tt.

Definition rte_power_monitor_wakeup (lcore_id : N) : prog Z :=
  (* prevent user from running this instruction if it's not supported *)
  supported <- call load_wait_supported ;;
  if negb supported then Ret (- ENOTSUP) else
  (* prevent buffer overrun *)
  if (RTE_MAX_LCORE <=? lcore_id)%N then Ret (- EINVAL) else
  let s := N.to_nat lcore_id in
  call (rte_spinlock_lock s) ;;
  a <- call (load_monitor_addr s) ;;
  (if negb (a =? 0) then __umwait_wakeup a else Ret tt) ;;
  call (rte_spinlock_unlock s) ;;
  Ret 0.

End Intrinsics.

(** ** One action at a time *)

(** A configuration: what is left to run, the state, and the events so
    far. *)
Record config (A : Type) := Cfg {
  cfg_prog : prog A;
  cfg_state : state;
  cfg_trace : list event
}.

Arguments Cfg {A} _ _ _.
Arguments cfg_prog {A} _.
Arguments cfg_state {A} _.
Arguments cfg_trace {A} _.

Definition step (self : N) {A : Type} (c : config A) : option (config A) :=
  match cfg_prog c with
  | Ret _ => None
  | Vis e k =>
      match exec self e (cfg_state c) with
      | Ok x s' => Some (Cfg (k x) s' (cfg_trace c ++ [Ev e x]))
      | Spin => None
      | Abort => None
      end
  end.

Inductive reach (self : N) {A : Type} : config A -> config A -> Prop :=
| reach_refl c : reach self c c
| reach_step c c' c'' :
    step self c = Some c' -> reach self c' c'' -> reach self c c''.

(** The configuration a call starts in. *)
Definition start {A : Type} (p : prog A) (s : state) : config A := Cfg p s [].

(** [n] actions from [c], if the program gets that far. *)
Fixpoint steps (self : N) {A : Type} (n : nat) (c : config A)
    : option (config A) :=
  match n with
  | O => Some c
  | S n' =>
      match step self c with
      | Some c' => steps self n' c'
      | None => None
      end
  end.

(** ** Results *)

Definition final_state {A : Type} (r : result A) : state :=
  match r with
  | Done _ s _ => s
  | Spinning s _ => s
  | Aborted s _ => s
  end.

Definition prepend {A : Type} (tr : list event) (r : result A) : result A :=
  match r with
  | Done a s t => Done a s (tr ++ t)
  | Spinning s t => Spinning s (tr ++ t)
  | Aborted s t => Aborted s (tr ++ t)
  end.

Definition is_aborted {A : Type} (r : result A) : bool :=
  match r with
  | Aborted _ _ => true
  | _ => false
  end.

(** ** Reading a trace *)

Definition ev_test (f : forall X, action X -> bool) (ev : event) : bool :=
  match ev with
  | Ev e _ => f _ e
  end.

Definition is_umwait (ev : event) : bool :=
  match ev with
  | Ev e _ => match e with umwait _ _ _ => true | _ => false end
  end.

Definition is_umonitor (ev : event) : bool :=
  match ev with
  | Ev e _ => match e with umonitor _ => true | _ => false end
  end.

Definition is_volatile_load (ev : event) : bool :=
  match ev with
  | Ev e _ => match e with volatile_load _ _ => true | _ => false end
  end.

(** The accesses to the wait state table. *)
Definition on_wait_status {X : Type} (e : action X) : bool :=
  match e with
  | rte_spinlock_lock _ | rte_spinlock_unlock _
  | load_monitor_addr _ | store_monitor_addr _ _ => true
  | _ => false
  end.

(** The accesses to the memory the watched addresses point into. *)
Definition on_memory {X : Type} (e : action X) : bool :=
  match e with
  | volatile_load _ _ | atomic_load_n _
  | atomic_compare_exchange_n _ _ _ => true
  | _ => false
  end.

Definition writes_wait_supported {X : Type} (e : action X) : bool :=
  match e with
  | store_wait_supported _ => true
  | _ => false
  end.

Definition writes_monitor_addr {X : Type} (e : action X) : bool :=
  match e with
  | store_monitor_addr _ _ => true
  | _ => false
  end.

Definition is_assert {X : Type} (e : action X) : bool :=
  match e with
  | RTE_ASSERT _ => true
  | _ => false
  end.

(** An event that is no access to the wait state table, no access to the
    watched memory and no write of the flag. *)
Definition quiet (ev : event) : bool :=
  negb (ev_test (@on_wait_status) ev) && negb (ev_test (@on_memory) ev)
  && negb (ev_test (@writes_wait_supported) ev).

(** How many stores to a [monitor_addr] there are in [tr]. *)
Definition count_stores (tr : list event) : nat :=
  length (List.filter (ev_test (@writes_monitor_addr)) tr).

(** The address of the last UMONITOR among the events [tr], unless an
    UMWAIT among them has come after it: what the events [tr] have armed
    the monitor on and not waited on.  [tr] holds the events of one call:
    what the monitor of the core was armed on before the call is not in
    it. *)
Definition arm (armed : option Z) (ev : event) : option Z :=
  match ev with
  | Ev e _ =>
      match e with
      | umonitor a => Some a
      | umwait _ _ _ => None
      | _ => armed
      end
  end.

Definition monitor_armed (tr : list event) : option Z :=
  fold_left arm tr None.

(** What [rte_power_monitor] does between the first unlock and the label
    [end], as a list of events: the masked comparison, then the wait. *)
Definition monitor_wait_events (c : rte_power_monitor_cond)
    (tsc_timestamp : Z) (m : mem) : list event :=
  let cur := load m (addr c) (Z.to_nat (data_sz c)) in
  let wait :=
    [Ev (umwait 0 (to_uint32 tsc_timestamp)
           (to_uint32 (Z.shiftr tsc_timestamp 32))) tt] in
  if mask c =? 0 then wait
  else
    Ev (volatile_load (addr c) (Z.to_nat (data_sz c))) cur ::
    (if Z.land cur (mask c) =? val c then [] else wait).

(** ** Programs as trees *)

(** Every action a program can come to satisfies [Q]. *)
Fixpoint all_actions (Q : forall X, action X -> bool) {A : Type}
    (p : prog A) : Prop :=
  match p with
  | Ret _ => True
  | Vis e k => Q _ e = true /\ forall x, all_actions Q (k x)
  end.

(** Every value a program can return satisfies [P]. *)
Fixpoint all_returns {A : Type} (P : A -> Prop) (p : prog A) : Prop :=
  match p with
  | Ret a => P a
  | Vis e k => forall x, all_returns P (k x)
  end.

(** A compare-and-swap that writes back the value it expects. *)
Definition keeps_memory {X : Type} (e : action X) : bool :=
  match e with
  | atomic_compare_exchange_n _ expected desired => expected =? desired
  | _ => true
  end.

Definition no_flag_write (X : Type) (e : action X) : bool :=
  negb (writes_wait_supported e).

Definition no_table_access (X : Type) (e : action X) : bool :=
  negb (on_wait_status e).

Definition no_addr_write (X : Type) (e : action X) : bool :=
  negb (writes_monitor_addr e).

Definition no_assert (X : Type) (e : action X) : bool :=
  negb (is_assert e).

Definition value_kept (X : Type) (e : action X) : bool :=
  keeps_memory e.

(** An action that cannot abort when the table has [n] records. *)
Definition safe_action (n : nat) (X : Type) (e : action X) : bool :=
  match e with
  | rte_spinlock_lock i | rte_spinlock_unlock i
  | load_monitor_addr i | store_monitor_addr i _ => (i <? n)%nat
  | RTE_ASSERT b => b
  | _ => true
  end.

(** ** States *)

(** The statics as the loader leaves them: zero-filled. *)
Definition initial_state (max_lcore : N) (m : mem) (c : rte_cpu_intrinsics)
    : state :=
  {| wait_supported := false;
     wait_status :=
       replicate (N.to_nat max_lcore) {| lock := false; monitor_addr := 0 |};
     memory := m;
     cpu := c |}.

(** The table has one record per lcore. *)
Definition table_ok (max_lcore : N) (s : state) : Prop :=
  length (wait_status s) = N.to_nat max_lcore.

(** The record of lcore [i] holds address [a]. *)
Definition published (i : nat) (a : Z) (s : state) : Prop :=
  monitor_addr <$> wait_status s !! i = Some a.

(** The record of lcore [i] is there and nobody holds its lock. *)
Definition lock_free (i : nat) (s : state) : Prop :=
  lock <$> wait_status s !! i = Some false.

Definition same_memory (s s' : state) : Prop :=
  forall x, memory s' x = memory s x.

Definition same_monitor_addr (s s' : state) : Prop :=
  map monitor_addr (wait_status s') = map monitor_addr (wait_status s).

Definition valid_width (sz : Z) : Prop := sz = 1 \/ sz = 2 \/ sz = 4 \/ sz = 8.

(** ** What holds throughout a call *)

(** [I] holds now and after every further action of the program. *)
Fixpoint always (I : state -> list event -> Prop) (self : N) {A : Type}
    (p : prog A) (s : state) (tr : list event) : Prop :=
  I s tr /\
  match p with
  | Ret _ => True
  | Vis e k =>
      match exec self e s with
      | Ok x s' => always I self (k x) s' (tr ++ [Ev e x])
      | Spin => True
      | Abort => True
      end
  end.

(** Once UMONITOR has been executed among the events [tr] of a call:
    [tr] has one store to [monitor_addr] and the record holds the address
    of the condition, or it has two, the second being the erase, and the
    record holds [NULL]. *)
Definition published_once_armed (i : nat) (c : rte_power_monitor_cond)
    (s : state) (tr : list event) : Prop :=
  existsb is_umonitor tr = true ->
  (count_stores tr = 1%nat /\ published i (addr c) s) \/
  (count_stores tr = 2%nat /\ published i 0 s).

(** ** The interface *)

(** The three operations of the interface. *)
Inductive operation : Type :=
| Monitor (pmc : option rte_power_monitor_cond) (tsc_timestamp : Z)
| Pause (tsc_timestamp : Z)
| Wakeup (lcore_id : N).

Definition operation_prog (max_lcore : N) (o : operation) : prog Z :=
  match o with
  | Monitor pmc tsc => rte_power_monitor max_lcore pmc tsc
  | Pause tsc => rte_power_pause tsc
  | Wakeup lcore_id => rte_power_monitor_wakeup max_lcore lcore_id
  end.

(** What a thread can call: the constructor run at startup, or one of the
    three operations. *)
Inductive api_call : Type :=
| Init
| Call (o : operation).

Definition do_call (max_lcore : N) (s : state) (c : N * api_call) : state :=
  match snd c with
  | Init => final_state (run (fst c) rte_power_intrinsics_init s)
  | Call o => final_state (run (fst c) (operation_prog max_lcore o) s)
  end.

(** A sequence of calls, each with the lcore id of its thread. *)
Definition do_calls (max_lcore : N) (l : list (N * api_call)) (s : state)
    : state :=
  fold_left (do_call max_lcore) l s.

(** ** Other lcores *)

(** What the threads of the other lcores may do to the state between two
    actions of lcore [i]: anything that leaves [monitor_addr] of record [i]
    as it is. *)
Definition rely (i : nat) (s s' : state) : Prop :=
  monitor_addr <$> wait_status s' !! i = monitor_addr <$> wait_status s !! i.

(** What an action of the thread of lcore [self] can give back. *)
Definition gives (self : N) {X : Type} (e : action X) : X -> Prop :=
  match e in action X return X -> Prop with
  | rte_lcore_id => fun x => x = self
  | _ => fun _ => True
  end.

(** [monitor_addr] of record [i] after action [e], from what it was. *)
Definition addr_after (i : nat) {X : Type} (e : action X) (a : option Z)
    : option Z :=
  match e with
  | store_monitor_addr j v => if (j =? i)%nat then Some v else a
  | _ => a
  end.

(** The value a program has returned, if it has. *)
Definition returned {A : Type} (p : prog A) : option A :=
  match p with
  | Ret r => Some r
  | Vis _ _ => None
  end.

(** [I] holds of the value returned, of [monitor_addr] of record [i] and of
    the events so far, now and after every further action, whatever the
    actions give back. *)
Fixpoint always_whatever {A : Type}
    (I : option A -> option Z -> list event -> Prop) (i : nat)
    (self : N) (p : prog A) (a : option Z) (tr : list event) : Prop :=
  I (returned p) a tr /\
  match p with
  | Ret _ => True
  | Vis e k =>
      forall x, gives self e x ->
                always_whatever I i self (k x) (addr_after i e a)
                  (tr ++ [Ev e x])
  end.

(** The configurations a call comes to when the other lcores act in
    between. *)
Inductive reach_among (self : N) {A : Type} : config A -> config A -> Prop :=
| among_refl c : reach_among self c c
| among_step c c' c'' :
    step self c = Some c' -> reach_among self c' c'' ->
    reach_among self c c''
| among_others c s' c'' :
    rely (N.to_nat self) (cfg_state c) s' ->
    reach_among self (Cfg (cfg_prog c) s' (cfg_trace c)) c'' ->
    reach_among self c c''.

(** An action that is no store to a [monitor_addr] other than the one of
    lcore [self], which is below [max_lcore]. *)
Definition stores_own (max_lcore self : N) (X : Type) (e : action X) : bool :=
  match e with
  | store_monitor_addr j _ =>
      (j =? N.to_nat self)%nat && (self <? max_lcore)%N
  | _ => true
  end.

(** Every action the thread of lcore [self] can come to in [p] satisfies
    [Q]. *)
Fixpoint all_actions_of (self : N) (Q : forall X, action X -> bool)
    {A : Type} (p : prog A) : Prop :=
  match p with
  | Ret _ => True
  | Vis e k =>
      Q _ e = true /\ forall x, gives self e x -> all_actions_of self Q (k x)
  end.

(** The call a thread is in, seen from its events [tr], the value [ret] it
    has returned if it has, and [monitor_addr] of its record, [a] now and
    [a0] when the call began.  Up to the first store the record is as it
    was; from the first store to the second it holds the address of the
    condition of [rte_power_monitor]; from the second on it holds [NULL];
    there is no third.  UMONITOR comes after the first store and arms the
    monitor on the address of the condition.  No call returns between the
    two stores. *)
Definition published_while_waiting (o : operation) (a0 : option Z)
    (ret : option Z) (a : option Z) (tr : list event) : Prop :=
  (existsb is_umonitor tr = true -> (1 <= count_stores tr)%nat) /\
  (count_stores tr = 0%nat -> a = a0) /\
  (count_stores tr = 1%nat ->
   exists c tsc, o = Monitor (Some c) tsc /\ a = Some (addr c)) /\
  (count_stores tr = 2%nat -> a = Some 0) /\
  (forall t, monitor_armed tr = Some t ->
             exists c tsc, o = Monitor (Some c) tsc /\ t = addr c) /\
  (count_stores tr <= 2)%nat /\
  (is_Some ret -> count_stores tr <> 1%nat).

(** ** The threads together *)

(** A thread: its lcore id, the operation it has called last, what is left
    of it to run, and its events since the call. *)
Record thread := Thread {
  th_lcore : N;
  th_call : operation;
  th_prog : prog Z;
  th_trace : list event
}.

(** The shared state and the threads.  A thread does the next action of
    its call; a thread that has returned calls an operation; the
    application writes to memory. *)
Inductive sys_step (max_lcore : N)
    : state * list thread -> state * list thread -> Prop :=
| sys_act s ths t th c' :
    ths !! t = Some th ->
    step (th_lcore th) (Cfg (th_prog th) s (th_trace th)) = Some c' ->
    sys_step max_lcore (s, ths)
      (cfg_state c',
       <[t := Thread (th_lcore th) (th_call th) (cfg_prog c') (cfg_trace c')]>
         ths)
| sys_call s ths t th r o :
    ths !! t = Some th ->
    th_prog th = Ret r ->
    sys_step max_lcore (s, ths)
      (s, <[t := Thread (th_lcore th) o (operation_prog max_lcore o) []]> ths)
| sys_write s ths m :
    sys_step max_lcore (s, ths) (set_memory m s, ths).

Inductive sys_reach (max_lcore : N)
    : state * list thread -> state * list thread -> Prop :=
| sys_reach_refl y : sys_reach max_lcore y y
| sys_reach_step y y' y'' :
    sys_reach max_lcore y y' -> sys_step max_lcore y' y'' ->
    sys_reach max_lcore y y''.

(** No two threads have the same lcore id below [max_lcore]. *)
Definition one_thread_per_lcore (max_lcore : N) (ths : list thread) : Prop :=
  forall t u th1 th2,
    ths !! t = Some th1 -> ths !! u = Some th2 -> t <> u ->
    (th_lcore th1 < max_lcore)%N ->
    th_lcore th1 <> th_lcore th2.

(** [monitor_addr a] is [NULL], or there is no record. *)
Definition null_or_none (a : option Z) : Prop := a = Some 0 \/ a = None.

(** Before any call: every thread has returned and no record holds an
    address. *)
Definition sys_idle (y : state * list thread) : Prop :=
  Forall (fun w => monitor_addr w = 0) (wait_status (fst y)) /\
  Forall (fun th => is_Some (returned (th_prog th)) /\ th_trace th = [])
    (snd y).

(** What holds of every thread at every time: the invariant of its call,
    and that whatever is left of the call stores to its own record only. *)
Definition thread_ok (max_lcore : N) (s : state) (th : thread) : Prop :=
  (exists a0,
     null_or_none a0 /\
     always_whatever (published_while_waiting (th_call th) a0)
       (N.to_nat (th_lcore th)) (th_lcore th) (th_prog th)
       (monitor_addr <$> wait_status s !! N.to_nat (th_lcore th))
       (th_trace th)) /\
  all_actions_of (th_lcore th) (stores_own max_lcore (th_lcore th))
    (th_prog th).

Definition sys_ok (max_lcore : N) (y : state * list thread) : Prop :=
  one_thread_per_lcore max_lcore (snd y) /\
  forall t th, snd y !! t = Some th -> thread_ok max_lcore (fst y) th.

(** ** More to read off a trace *)

(** The events of a run. *)
Definition events {A : Type} (r : result A) : list event :=
  match r with
  | Done _ _ tr => tr
  | Spinning _ tr => tr
  | Aborted _ tr => tr
  end.

(** UMWAIT and TPAUSE are given control 0 (state C0.2) and a deadline in
    two 32-bit halves that make up [tsc] as a 64-bit value. *)
Definition deadline_of (tsc : Z) (X : Type) (e : action X) : bool :=
  match e with
  | umwait ctl l h | tpause ctl l h =>
      (ctl =? 0) && (0 <=? l) && (l <? 2 ^ 32) && (0 <=? h) && (h <? 2 ^ 32)
      && (l + 2 ^ 32 * h =? tsc mod 2 ^ 64)
  | _ => true
  end.

(** ** Locks *)

(** What the events of a thread tell: the record whose lock it holds, and
    [monitor_addr] of that record once the thread has read or written it
    under the lock. *)
Record view := View {
  held : option nat;
  seen : option Z
}.

Definition view_after (v : view) (ev : event) : view :=
  match ev with
  | Ev e x =>
      match e in action X return X -> view with
      | rte_spinlock_lock i => fun _ => View (Some i) None
      | rte_spinlock_unlock _ => fun _ => View None None
      | load_monitor_addr _ => fun a => View (held v) (Some a)
      | store_monitor_addr _ a => fun _ => View (held v) (Some a)
      | _ => fun _ => v
      end x
  end.

Definition view_of (tr : list event) : view :=
  fold_left view_after tr (View None None).

Definition holds (v : view) (i : nat) : bool :=
  match held v with
  | Some j => (j =? i)%nat
  | None => false
  end.

Definition holds_none (v : view) : bool :=
  match held v with
  | Some _ => false
  | None => true
  end.

(** The thread holds a lock and has seen [a] in the record. *)
Definition knows (v : view) (a : Z) : bool :=
  match held v, seen v with
  | Some _, Some b => b =? a
  | _, _ => false
  end.

(** How the code uses the locks: a lock is taken with no lock held; a
    record is unlocked, read and written with its lock held; UMONITOR is
    executed under the lock, on the address just stored; the address of a
    sleeping lcore is touched under the lock, and it is the address read
    from the record, not [NULL]; the waits and the read of the watched
    value are done with no lock held. *)
Definition allowed (v : view) (X : Type) (e : action X) : bool :=
  match e with
  | rte_spinlock_lock _ | umwait _ _ _ | tpause _ _ _
  | volatile_load _ _ => holds_none v
  | rte_spinlock_unlock i | load_monitor_addr i
  | store_monitor_addr i _ => holds v i
  | umonitor a => knows v a
  | atomic_load_n a
  | atomic_compare_exchange_n a _ _ => knows v a && negb (a =? 0)
  | _ => true
  end.

(** Every action the thread of lcore [self] can come to in [p] is allowed
    when it comes to it, and [p] returns with no lock held. *)
Fixpoint disciplined (self : N) {A : Type} (p : prog A) (v : view) : Prop :=
  match p with
  | Ret _ => held v = None
  | Vis e k =>
      allowed v _ e = true /\
      forall x, gives self e x ->
                disciplined self (k x) (view_after v (Ev e x))
  end.

(** The [lock] of record [i] after action [e], from what it was. *)
Definition lock_after (i : nat) {X : Type} (e : action X) (l : option bool)
    : option bool :=
  match e with
  | rte_spinlock_lock j => if (j =? i)%nat then Some true else l
  | rte_spinlock_unlock j => if (j =? i)%nat then Some false else l
  | _ => l
  end.

(** The address an action touches on behalf of a sleeping lcore. *)
Definition touched {X : Type} (e : action X) : option Z :=
  match e with
  | atomic_load_n a | atomic_compare_exchange_n a _ _ => Some a
  | _ => None
  end.

Definition no_touch (X : Type) (e : action X) : bool :=
  match touched e with
  | Some _ => false
  | None => true
  end.

(** The locks among the threads: every thread follows the discipline; the
    lock a thread holds is taken; no two threads hold the same lock; and
    what a thread has seen in the record it holds is still there. *)
Definition locks_ok (y : state * list thread) : Prop :=
  (forall t th,
     snd y !! t = Some th ->
     disciplined (th_lcore th) (th_prog th) (view_of (th_trace th))) /\
  (forall t th i,
     snd y !! t = Some th ->
     held (view_of (th_trace th)) = Some i ->
     lock <$> wait_status (fst y) !! i = Some true) /\
  (forall t u th1 th2 i,
     snd y !! t = Some th1 -> snd y !! u = Some th2 -> t <> u ->
     held (view_of (th_trace th1)) = Some i ->
     held (view_of (th_trace th2)) <> Some i) /\
  (forall t th i a,
     snd y !! t = Some th ->
     held (view_of (th_trace th)) = Some i ->
     seen (view_of (th_trace th)) = Some a ->
     monitor_addr <$> wait_status (fst y) !! i = Some a).

(** Every record that holds an address is the record of a thread. *)
Definition owned (y : state * list thread) : Prop :=
  forall i a,
    monitor_addr <$> wait_status (fst y) !! i = Some a -> a <> 0 ->
    exists t th, snd y !! t = Some th /\ N.to_nat (th_lcore th) = i.

(** What is left of the call of a thread writes back what it compares
    with, and touches no address unless the call is
    [rte_power_monitor_wakeup]. *)
Definition thread_gentle (th : thread) : Prop :=
  all_actions_of (th_lcore th) value_kept (th_prog th) /\
  ((exists l, th_call th = Wakeup l) \/
   all_actions_of (th_lcore th) no_touch (th_prog th)).

Definition sys_gentle (y : state * list thread) : Prop :=
  forall t th, snd y !! t = Some th -> thread_gentle th.

(** The lock an action takes. *)
Definition locking {X : Type} (e : action X) : option nat :=
  match e with
  | rte_spinlock_lock i => Some i
  | _ => None
  end.

(** Every lock that is taken is held by a thread. *)
Definition locks_held (y : state * list thread) : Prop :=
  forall i,
    lock <$> wait_status (fst y) !! i = Some true ->
    exists t th,
      snd y !! t = Some th /\ held (view_of (th_trace th)) = Some i.

Definition locks_free (s : state) : Prop :=
  Forall (fun w => lock w = false) (wait_status s).

(** The table has its records, and what is left of every call indexes it
    within its bounds and asserts nothing false. *)
Definition sys_sound (max_lcore : N) (y : state * list thread) : Prop :=
  table_ok max_lcore (fst y) /\
  forall t th,
    snd y !! t = Some th ->
    all_actions (safe_action (N.to_nat max_lcore)) (th_prog th).

(** The thread can do its next action. *)
Definition can_step (s : state) (th : thread) : Prop :=
  is_Some (step (th_lcore th) (Cfg (th_prog th) s (th_trace th))).

(** ** Schedules *)

(** One move of the system: thread [t] does its next action, thread [t]
    calls an operation, or the application writes to memory. *)
Inductive sys_move : Type :=
| Do_act (t : nat)
| Do_call (t : nat) (o : operation)
| Do_write (m : mem).

Definition sys_do (max_lcore : N) (y : state * list thread) (mv : sys_move)
    : option (state * list thread) :=
  match mv with
  | Do_act t =>
      match snd y !! t with
      | Some th =>
          match step (th_lcore th)
                  (Cfg (th_prog th) (fst y) (th_trace th)) with
          | Some c' =>
              Some (cfg_state c',
                    <[t := Thread (th_lcore th) (th_call th) (cfg_prog c')
                            (cfg_trace c')]> (snd y))
          | None => None
          end
      | None => None
      end
  | Do_call t o =>
      match snd y !! t with
      | Some th =>
          match th_prog th with
          | Ret _ =>
              Some (fst y,
                    <[t := Thread (th_lcore th) o
                            (operation_prog max_lcore o) []]> (snd y))
          | Vis _ _ => None
          end
      | None => None
      end
  | Do_write m => Some (set_memory m (fst y), snd y)
  end.

(** The moves of a schedule, one after the other, as far as they can be
    done. *)
Fixpoint sys_run (max_lcore : N) (l : list sys_move)
    (y : state * list thread) : option (state * list thread) :=
  match l with
  | [] => Some y
  | mv :: l' =>
      match sys_do max_lcore y mv with
      | Some y' => sys_run max_lcore l' y'
      | None => None
      end
  end.

(** ** Going to sleep *)

(** Every action the thread of lcore [self] can come to in [p] satisfies
    [Q] with the events before it. *)
Fixpoint all_actions_after (self : N)
    (Q : list event -> forall X, action X -> bool) {A : Type} (p : prog A)
    (tr : list event) : Prop :=
  match p with
  | Ret _ => True
  | Vis e k =>
      Q tr _ e = true /\
      forall x, gives self e x ->
                all_actions_after self Q (k x) (tr ++ [Ev e x])
  end.

(** UMWAIT comes with the monitor armed, after the first store to
    [monitor_addr] and before the second. *)
Definition sleeps_armed (tr : list event) (X : Type) (e : action X) : bool :=
  match e with
  | umwait _ _ _ =>
      (count_stores tr =? 1)%nat &&
      match monitor_armed tr with
      | Some _ => true
      | None => false
      end
  | _ => true
  end.

Definition sys_sleeps_armed (y : state * list thread) : Prop :=
  forall t th,
    snd y !! t = Some th ->
    all_actions_after (th_lcore th) sleeps_armed (th_prog th) (th_trace th).

(** ** A configuration to try things on *)

(** 128 lcores; the byte at address 4096 is 1, every other byte is 0; the
    platform has both instructions and the initialisation has run. *)
Definition example_memory : mem :=
  fun x => if x =? 4096 then Byte.x01 else Byte.x00.

Definition example_cpu : rte_cpu_intrinsics :=
  {| power_monitor := true; power_pause := true |}.

Definition example_state : state :=
  final_state
    (run 0 rte_power_intrinsics_init
       (initial_state 128 example_memory example_cpu)).

(** Wait for the low byte at 4096 to be 1: it already is. *)
Definition example_cond : rte_power_monitor_cond :=
  {| addr := 4096; val := 1; mask := 255; data_sz := 1 |}.

(** A condition with a width of 3 bytes. *)
Definition example_bad_cond : rte_power_monitor_cond :=
  {| addr := 4096; val := 1; mask := 255; data_sz := 3 |}.

Definition example_sleeper : power_wait_status :=
  {| lock := false; monitor_addr := 4096 |}.

(** Lcore 3 is sleeping on address 4096. *)
Definition example_sleeping_state : state :=
  put_record 3 example_sleeper example_state.

(** Two threads, on lcores 3 and 5, that have not called anything yet. *)
Definition example_threads : list thread :=
  [Thread 3 (Pause 0) (Ret 0) []; Thread 5 (Pause 0) (Ret 0) []].

(** A condition whose width is 4 and whose expected value does not fit 4
    bytes, and one whose expected value has a bit the mask clears. *)
Definition example_wide_cond : rte_power_monitor_cond :=
  {| addr := 4096; val := 2 ^ 32; mask := 2 ^ 33 - 1; data_sz := 4 |}.

Definition example_unmasked_cond : rte_power_monitor_cond :=
  {| addr := 4096; val := 3; mask := 1; data_sz := 1 |}.

Definition example_sys : state * list thread :=
  (example_state, example_threads).

(** The thread of lcore 3 calls [rte_power_monitor] and gets as far as
    releasing the lock; the thread of lcore 5 calls
    [rte_power_monitor_wakeup] for lcore 3 and gets as far as the atomic
    load; the thread of lcore 3 reads the watched value, which matches. *)
Definition example_moves : list sys_move :=
  [Do_call 0 (Monitor (Some example_cond) 1000);
   Do_act 0; Do_act 0; Do_act 0; Do_act 0; Do_act 0; Do_act 0;
   Do_call 1 (Wakeup 3);
   Do_act 1; Do_act 1; Do_act 1; Do_act 1;
   Do_act 0].

(** Where that leads: lcore 3 is about to take its lock again, which lcore
    5 holds, about to do the compare-and-swap on 4096. *)
Definition example_wakeup_under_way : state * list thread :=
  Eval vm_compute in
    default example_sys (sys_run 128 example_moves example_sys).

(** The thread of lcore 3 calls [rte_power_monitor] with a condition that
    does not hold and gets as far as UMWAIT. *)
Definition example_sleep_moves : list sys_move :=
  [Do_call 0 (Monitor (Some example_unmasked_cond) 1000);
   Do_act 0; Do_act 0; Do_act 0; Do_act 0; Do_act 0; Do_act 0; Do_act 0].

Definition example_about_to_sleep : state * list thread :=
  Eval vm_compute in
    default example_sys (sys_run 128 example_sleep_moves example_sys).

(** * Properties *)

(** ** Running programs *)

Lemma prepend_nil {A : Type} (r : result A) : prepend [] r = r.
Proof. destruct r; reflexivity. Qed.

Lemma log_prepend {A : Type} (ev : event) (tr : list event) (r : result A) :
  log ev (prepend tr r) = prepend (ev :: tr) r.
Proof. destruct r; reflexivity. Qed.

(** ** The wait state table *)

Lemma put_record_lookup (i : nat) (w w0 : power_wait_status) (s : state) :
  wait_status s !! i = Some w0 ->
  wait_status (put_record i w s) !! i = Some w.
Proof.
  intros H. simpl. apply list_lookup_insert_eq. eapply lookup_lt_Some, H.
Qed.

Lemma put_record_lookup_ne (i j : nat) (w : power_wait_status) (s : state) :
  i <> j -> wait_status (put_record i w s) !! j = wait_status s !! j.
Proof. intros H. simpl. now apply list_lookup_insert_ne. Qed.

Lemma put_record_twice (i : nat) (w1 w2 : power_wait_status) (s : state) :
  put_record i w2 (put_record i w1 s) = put_record i w2 s.
Proof.
  unfold put_record, set_wait_status. simpl.
  now rewrite list_insert_insert_eq.
Qed.

Lemma put_record_same (i : nat) (w : power_wait_status) (s : state) :
  wait_status s !! i = Some w -> put_record i w s = s.
Proof.
  intros H. unfold put_record, set_wait_status.
  rewrite (list_insert_id _ _ _ H). now destruct s.
Qed.

Lemma with_record_some {X : Type} (i : nat) (s : state)
    (f : power_wait_status -> outcome X) (w : power_wait_status) :
  wait_status s !! i = Some w -> with_record i s f = f w.
Proof. intros H. unfold with_record. now rewrite H. Qed.

Lemma lock_free_record (i : nat) (s : state) :
  lock_free i s ->
  exists w, wait_status s !! i = Some w /\ lock w = false.
Proof.
  unfold lock_free. destruct (wait_status s !! i) as [w | ]; simpl;
    [ | discriminate ].
  intros H. injection H as H. now exists w.
Qed.

Lemma published_record (i : nat) (a : Z) (s : state) :
  published i a s ->
  exists w, wait_status s !! i = Some w /\ monitor_addr w = a.
Proof.
  unfold published. destruct (wait_status s !! i) as [w | ]; simpl;
    [ | discriminate ].
  intros H. injection H as H. now exists w.
Qed.

(** ** Operand widths *)

Lemma check_val_size_0 (sz : Z) :
  __check_val_size sz = 0 <-> sz = 1 \/ sz = 2 \/ sz = 4 \/ sz = 8.
Proof.
  unfold __check_val_size.
  destruct (Z.eqb_spec sz 1); [ intuition | ].
  destruct (Z.eqb_spec sz 2); [ intuition | ].
  destruct (Z.eqb_spec sz 4); [ intuition | ].
  destruct (Z.eqb_spec sz 8); [ intuition | ].
  split; [ discriminate | intuition ].
Qed.

Lemma check_val_size_values (sz : Z) :
  __check_val_size sz = 0 \/ __check_val_size sz = -1.
Proof.
  unfold __check_val_size.
  repeat match goal with |- context [if ?b then _ else _] => destruct b end;
    auto.
Qed.

Lemma check_val_size_neg (sz : Z) :
  (__check_val_size sz <? 0) = false <-> __check_val_size sz = 0.
Proof.
  destruct (check_val_size_values sz) as [H | H]; rewrite H; simpl;
    intuition discriminate.
Qed.

Lemma get_umwait_val_checked (p sz : Z) :
  __check_val_size sz = 0 ->
  __get_umwait_val p sz = call (volatile_load p (Z.to_nat sz)).
Proof.
  intros H. apply check_val_size_0 in H.
  destruct H as [-> | [-> | [-> | ->]]]; reflexivity.
Qed.

(** ** Other lcores: one action *)

Lemma monitor_armed_umonitor (tr : list event) (x : Z) :
  monitor_armed tr = Some x -> existsb is_umonitor tr = true.
Proof.
  unfold monitor_armed.
  induction tr as [ | ev tr IH] using rev_ind; [ discriminate | ].
  rewrite fold_left_app, existsb_app. simpl.
  destruct ev as [X e r]. destruct e; simpl; intros H;
    try discriminate; try (rewrite IH by exact H; reflexivity).
  now rewrite orb_true_r.
Qed.

Lemma exec_gives (self : N) {X : Type} (e : action X) (s s' : state) (x : X) :
  exec self e s = Ok x s' -> gives self e x.
Proof.
  destruct e; simpl; try exact (fun _ => Logic.I).
  intros E. now injection E as <- _.
Qed.

Lemma lookup_put_record_field (i j : nat) (w w0 : power_wait_status)
    (s : state) :
  wait_status s !! j = Some w0 ->
  monitor_addr <$> wait_status (put_record j w s) !! i =
  if (j =? i)%nat then Some (monitor_addr w)
  else monitor_addr <$> wait_status s !! i.
Proof.
  intros H. destruct (Nat.eqb_spec j i) as [-> | Hne].
  - now rewrite (put_record_lookup _ _ _ _ H).
  - now rewrite put_record_lookup_ne.
Qed.

Lemma exec_addr_after (self : N) (i : nat) {X : Type} (e : action X)
    (s s' : state) (x : X) :
  exec self e s = Ok x s' ->
  monitor_addr <$> wait_status s' !! i =
  addr_after i e (monitor_addr <$> wait_status s !! i).
Proof.
  destruct e; simpl; unfold with_record; intros E;
    repeat match type of E with
      | context [match ?t with _ => _ end] => destruct t eqn:?
      end;
    try discriminate; injection E as <- <-; try reflexivity;
    erewrite lookup_put_record_field by eassumption; simpl;
    destruct (Nat.eqb_spec i0 i) as [-> | Hne]; try reflexivity;
    match goal with H : _ !! _ = Some _ |- _ => now rewrite H end.
Qed.

Lemma always_whatever_now {A : Type}
    (I : option A -> option Z -> list event -> Prop) (i : nat) (self : N)
    (p : prog A) (a : option Z) (tr : list event) :
  always_whatever I i self p a tr -> I (returned p) a tr.
Proof. destruct p; simpl; tauto. Qed.

Lemma always_whatever_among {A : Type}
    (I : option A -> option Z -> list event -> Prop)
    (self : N) (c c' : config A) :
  reach_among self c c' ->
  always_whatever I (N.to_nat self) self (cfg_prog c)
    (monitor_addr <$> wait_status (cfg_state c) !! N.to_nat self)
    (cfg_trace c) ->
  I (returned (cfg_prog c'))
    (monitor_addr <$> wait_status (cfg_state c') !! N.to_nat self)
    (cfg_trace c').
Proof.
  induction 1 as [c | c c' c'' St _ IH | c s' c'' Rl _ IH]; intros H.
  - eapply always_whatever_now, H.
  - apply IH. unfold step in St.
    destruct (cfg_prog c) as [a | X e k]; [ discriminate | ].
    simpl in H. destruct H as [_ H].
    destruct (exec self e (cfg_state c)) as [x s1 | | ] eqn:E;
      try discriminate.
    injection St as <-. simpl.
    rewrite (exec_addr_after _ _ _ _ _ _ E).
    apply H. eapply exec_gives, E.
  - apply IH. simpl. unfold rely in Rl. now rewrite Rl.
Qed.

(** A call on its own is a call among others that do nothing. *)
Lemma reach_among_reach (self : N) {A : Type} (c c' : config A) :
  reach self c c' -> reach_among self c c'.
Proof.
  induction 1 as [c | c c' c'' St _ IH].
  - apply among_refl.
  - eapply among_step; eassumption.
Qed.

(** An action of lcore [self] that stores to its own record only leaves
    the records of the other lcores below [max_lcore] alone, and the
    records of all lcores if [self] is not below [max_lcore]. *)
Lemma exec_stores_own (max_lcore self : N) (i : nat) {X : Type}
    (e : action X) (s s' : state) (x : X) :
  stores_own max_lcore self X e = true ->
  i <> N.to_nat self \/ (max_lcore <= self)%N ->
  exec self e s = Ok x s' ->
  rely i s s'.
Proof.
  intros Q D E. unfold rely. rewrite (exec_addr_after _ i _ _ _ _ E).
  destruct e; try reflexivity. simpl in *.
  apply andb_true_iff in Q as [Q1 Q2].
  apply Nat.eqb_eq in Q1. apply N.ltb_lt in Q2. subst i0.
  destruct (Nat.eqb_spec (N.to_nat self) i) as [<- | Hne]; [ | reflexivity ].
  destruct D; [ congruence | lia ].
Qed.

Lemma step_all_actions_of (self : N) (Q : forall X, action X -> bool)
    {A : Type} (c c' : config A) :
  all_actions_of self Q (cfg_prog c) ->
  step self c = Some c' ->
  all_actions_of self Q (cfg_prog c') /\
  exists X (e : action X) (x : X),
    Q X e = true /\ exec self e (cfg_state c) = Ok x (cfg_state c').
Proof.
  unfold step. destruct (cfg_prog c) as [a | X e k]; [ discriminate | ].
  simpl. intros [Qe Hk].
  destruct (exec self e (cfg_state c)) as [x s1 | | ] eqn:E; try discriminate.
  intros St. injection St as <-. simpl. split.
  - apply Hk. eapply exec_gives, E.
  - now exists X, e, x.
Qed.

Section Properties.

Variable RTE_MAX_LCORE : N.

Abbreviation monitor := (rte_power_monitor RTE_MAX_LCORE).
Abbreviation wakeup := (rte_power_monitor_wakeup RTE_MAX_LCORE).

(** In a proof about a run: record [i] is known, take the next access to
    it. *)
Ltac on_record H :=
  erewrite with_record_some by (first [ exact H | eapply put_record_lookup, H ]);
  rewrite ?put_record_twice;
  unfold set_lock, set_monitor_addr; cbn [lock monitor_addr].

Lemma run_monitor_end (self : N) (i : nat) (s : state)
    (w : power_wait_status) :
  wait_status s !! i = Some w -> lock w = false ->
  run self (rte_power_monitor_end i) s =
  Done 0 (put_record i {| lock := false; monitor_addr := 0 |} s)
    [Ev (rte_spinlock_lock i) tt; Ev (store_monitor_addr i 0) tt;
     Ev (rte_spinlock_unlock i) tt].
Proof.
  intros H L. unfold rte_power_monitor_end. cbn [bind call run exec].
  on_record H. rewrite L. do 2 on_record H. reflexivity.
Qed.

Lemma run_monitor (self : N) (c : rte_power_monitor_cond) (tsc : Z)
    (s : state) (w : power_wait_status) :
  wait_supported s = true ->
  (self < RTE_MAX_LCORE)%N ->
  __check_val_size (data_sz c) = 0 ->
  wait_status s !! N.to_nat self = Some w ->
  lock w = false ->
  run self (monitor (Some c) tsc) s =
  Done 0
    (put_record (N.to_nat self) {| lock := false; monitor_addr := 0 |} s)
    ([Ev rte_lcore_id self; Ev load_wait_supported true;
      Ev (rte_spinlock_lock (N.to_nat self)) tt;
      Ev (store_monitor_addr (N.to_nat self) (addr c)) tt;
      Ev (umonitor (addr c)) tt;
      Ev (rte_spinlock_unlock (N.to_nat self)) tt]
     ++ monitor_wait_events c tsc (memory s)
     ++ [Ev (rte_spinlock_lock (N.to_nat self)) tt;
         Ev (store_monitor_addr (N.to_nat self) 0) tt;
         Ev (rte_spinlock_unlock (N.to_nat self)) tt]).
Proof.
  intros G R V H L.
  assert (E : run self (rte_power_monitor_end (N.to_nat self))
                (put_record (N.to_nat self)
                   {| lock := false; monitor_addr := addr c |} s) =
              Done 0
                (put_record (N.to_nat self)
                   {| lock := false; monitor_addr := 0 |} s)
                [Ev (rte_spinlock_lock (N.to_nat self)) tt;
                 Ev (store_monitor_addr (N.to_nat self) 0) tt;
                 Ev (rte_spinlock_unlock (N.to_nat self)) tt]).
  { erewrite run_monitor_end;
      [ | eapply put_record_lookup, H | reflexivity ].
    now rewrite put_record_twice. }
  unfold rte_power_monitor, monitor_wait_events.
  cbn [bind call run exec]. rewrite G. cbn [negb log].
  apply N.leb_gt in R. rewrite R.
  apply check_val_size_neg in V as V'. rewrite V'.
  rewrite (get_umwait_val_checked _ _ V).
  cbn [bind call run exec].
  on_record H. rewrite L. do 2 on_record H. cbn [log].
  destruct (mask c =? 0); cbn [negb run exec].
  - rewrite E. reflexivity.
  - destruct (Z.land _ (mask c) =? val c); cbn [run exec]; rewrite E;
      reflexivity.
Qed.

(** ** Reachable configurations *)

Lemma always_now (I : state -> list event -> Prop) (self : N) {A : Type}
    (p : prog A) (s : state) (tr : list event) :
  always I self p s tr -> I s tr.
Proof. destruct p; simpl; tauto. Qed.

Lemma always_reach (I : state -> list event -> Prop) (self : N) {A : Type}
    (c c' : config A) :
  reach self c c' ->
  always I self (cfg_prog c) (cfg_state c) (cfg_trace c) ->
  I (cfg_state c') (cfg_trace c').
Proof.
  induction 1 as [c | c c' c'' St _ IH]; intros H.
  - eapply always_now, H.
  - apply IH. unfold step in St.
    destruct (cfg_prog c) as [a | X e k]; [ discriminate | ].
    simpl in H. destruct H as [_ H].
    destruct (exec self e (cfg_state c)) as [x s' | | ]; try discriminate.
    injection St as <-. exact H.
Qed.

Lemma reach_always (I : state -> list event -> Prop) (self : N) {A : Type}
    (p : prog A) :
  forall s tr,
    (forall c', reach self (Cfg p s tr) c' ->
                I (cfg_state c') (cfg_trace c')) ->
    always I self p s tr.
Proof.
  induction p as [a | X e k IH]; intros s tr H; simpl.
  - split; [ | exact Logic.I ]. apply (H (Cfg (Ret a) s tr)). constructor.
  - split. { apply (H (Cfg (Vis e k) s tr)). constructor. }
    destruct (exec self e s) as [x s' | | ] eqn:E; try exact Logic.I.
    apply IH. intros c' R. apply H.
    eapply reach_step; [ | exact R ].
    unfold step. simpl. now rewrite E.
Qed.

Lemma steps_reach (self : N) {A : Type} (n : nat) :
  forall c c' : config A, steps self n c = Some c' -> reach self c c'.
Proof.
  induction n as [ | n IH]; intros c c' H; simpl in H.
  - injection H as <-. constructor.
  - destruct (step self c) as [c1 | ] eqn:E; [ | discriminate ].
    eapply reach_step; [ exact E | now apply IH ].
Qed.

Lemma reach_steps (self : N) {A : Type} (c c' : config A) :
  reach self c c' -> exists n, steps self n c = Some c'.
Proof.
  induction 1 as [c | c c' c'' St _ [n IH]].
  - now exists O.
  - exists (S n). simpl. now rewrite St.
Qed.

(** A run to the end is a reachable configuration. *)
Lemma run_reach (self : N) {A : Type} (p : prog A) :
  forall s tr0 a s' tr,
    run self p s = Done a s' tr ->
    reach self (Cfg p s tr0) (Cfg (Ret a) s' (tr0 ++ tr)).
Proof.
  induction p as [a0 | X e k IH]; intros s tr0 a s' tr H; simpl in H.
  - injection H as <- <- <-. rewrite app_nil_r. constructor.
  - destruct (exec self e s) as [x s1 | | ] eqn:E; try discriminate.
    destruct (run self (k x) s1) as [a1 s2 tr1 | | ] eqn:E1; try discriminate.
    simpl in H. injection H as <- <- <-.
    eapply reach_step.
    + unfold step. simpl. rewrite E. reflexivity.
    + replace (tr0 ++ Ev e x :: tr1) with ((tr0 ++ [Ev e x]) ++ tr1)
        by now rewrite <- app_assoc.
      now apply IH.
Qed.

Lemma reach_run (self : N) {A : Type} (c c' : config A) :
  reach self c c' ->
  exists tr,
    cfg_trace c' = cfg_trace c ++ tr /\
    run self (cfg_prog c) (cfg_state c) =
    prepend tr (run self (cfg_prog c') (cfg_state c')).
Proof.
  induction 1 as [c | c c1 c2 St _ (tr & T & IH)].
  - exists []. now rewrite app_nil_r, prepend_nil.
  - unfold step in St. destruct (cfg_prog c) as [a | X e k]; [ discriminate | ].
    simpl. destruct (exec self e (cfg_state c)) as [x s1 | | ];
      try discriminate.
    injection St as <-. simpl in *.
    exists (Ev e x :: tr). split.
    + now rewrite T, <- app_assoc.
    + now rewrite IH, log_prepend.
Qed.

(** ** Return values *)

Lemma run_all_returns (self : N) {A : Type} (P : A -> Prop) (p : prog A) :
  all_returns P p ->
  forall s a s' tr, run self p s = Done a s' tr -> P a.
Proof.
  induction p as [a0 | X e k IH]; simpl; intros H s a s' tr R.
  - now injection R as <- _ _.
  - destruct (exec self e s) as [x s1 | | ]; try discriminate.
    destruct (run self (k x) s1) as [a1 s2 tr1 | | ] eqn:E; try discriminate.
    simpl in R. injection R as <- _ _. eapply IH; [ apply H | exact E ].
Qed.

Lemma all_returns_bind {A B : Type} (P : B -> Prop) (p : prog A)
    (f : A -> prog B) :
  (forall a, all_returns P (f a)) -> all_returns P (bind p f).
Proof. intros H. induction p as [a | X e k IH]; simpl; auto. Qed.

Lemma monitor_end_returns (i : nat) :
  all_returns (fun r => r = 0) (rte_power_monitor_end i).
Proof. unfold rte_power_monitor_end. simpl. auto. Qed.

(** ** [rte_power_monitor]: the checks *)

Lemma run_monitor_unsupported (self : N)
    (pmc : option rte_power_monitor_cond) (tsc : Z) (s : state) :
  wait_supported s = false ->
  run self (monitor pmc tsc) s =
  Done (- ENOTSUP) s [Ev rte_lcore_id self; Ev load_wait_supported false].
Proof.
  intros G. unfold rte_power_monitor. cbn [bind call run exec].
  rewrite G. reflexivity.
Qed.

Lemma run_monitor_no_lcore (self : N)
    (pmc : option rte_power_monitor_cond) (tsc : Z) (s : state) :
  wait_supported s = true ->
  (RTE_MAX_LCORE <= self)%N ->
  run self (monitor pmc tsc) s =
  Done (- EINVAL) s [Ev rte_lcore_id self; Ev load_wait_supported true].
Proof.
  intros G R. unfold rte_power_monitor. cbn [bind call run exec].
  rewrite G. apply N.leb_le in R. cbn [negb]. rewrite R. reflexivity.
Qed.

Lemma run_monitor_null (self : N) (tsc : Z) (s : state) :
  wait_supported s = true ->
  (self < RTE_MAX_LCORE)%N ->
  run self (monitor None tsc) s =
  Done (- EINVAL) s [Ev rte_lcore_id self; Ev load_wait_supported true].
Proof.
  intros G R. unfold rte_power_monitor. cbn [bind call run exec].
  rewrite G. apply N.leb_gt in R. cbn [negb]. rewrite R. reflexivity.
Qed.

Lemma run_monitor_bad_size (self : N) (c : rte_power_monitor_cond) (tsc : Z)
    (s : state) :
  wait_supported s = true ->
  (self < RTE_MAX_LCORE)%N ->
  __check_val_size (data_sz c) <> 0 ->
  run self (monitor (Some c) tsc) s =
  Done (- EINVAL) s [Ev rte_lcore_id self; Ev load_wait_supported true].
Proof.
  intros G R V. unfold rte_power_monitor. cbn [bind call run exec].
  rewrite G. apply N.leb_gt in R. cbn [negb]. rewrite R.
  destruct (check_val_size_values (data_sz c)) as [E | E]; [ easy | ].
  rewrite E. reflexivity.
Qed.

(** Past the checks, the only value returned is 0. *)
Lemma run_monitor_valid_returns (self : N) (c : rte_power_monitor_cond)
    (tsc : Z) (s s' : state) (r : Z) (tr : list event) :
  wait_supported s = true ->
  (self < RTE_MAX_LCORE)%N ->
  __check_val_size (data_sz c) = 0 ->
  run self (monitor (Some c) tsc) s = Done r s' tr ->
  r = 0.
Proof.
  intros G R V. unfold rte_power_monitor. cbn [bind call run exec].
  rewrite G. apply N.leb_gt in R. cbn [negb]. rewrite R.
  apply check_val_size_neg in V as V'. rewrite V'.
  rewrite (get_umwait_val_checked _ _ V).
  match goal with
  | |- log _ (log _ (run self ?p s)) = _ -> _ =>
      assert (H : all_returns (fun r => r = 0) p)
  end.
  { cbn [all_returns]. intros _ _ _ _.
    destruct (mask c =? 0); cbn [negb bind call all_returns].
    - intros _. apply monitor_end_returns.
    - intros x. destruct (Z.land x (mask c) =? val c).
      + apply monitor_end_returns.
      + cbn [all_returns]. intros _. apply monitor_end_returns. }
  intros E.
  match type of E with
  | log _ (log _ ?q) = _ => destruct q as [a1 s1 tr1 | | ] eqn:Q
  end; try discriminate.
  simpl in E. injection E as <- _ _.
  eapply (run_all_returns self (fun r => r = 0)); [ exact H | exact Q ].
Qed.

(** ** Memory *)

Lemma load_bytes_length (m : mem) (n : nat) :
  forall p, length (load_bytes m p n) = n.
Proof. induction n as [ | n IH]; intros p; simpl; auto. Qed.

Lemma load_bytes_ext (m1 m2 : mem) (n : nat) :
  (forall x, m1 x = m2 x) ->
  forall p, load_bytes m1 p n = load_bytes m2 p n.
Proof.
  intros H. induction n as [ | n IH]; intros p; simpl; [ reflexivity | ].
  now rewrite H, IH.
Qed.

Lemma store_bytes_ext (bs : list byte) :
  forall (m1 m2 : mem) (p : Z),
    (forall x, m1 x = m2 x) ->
    forall x, store_bytes m1 p bs x = store_bytes m2 p bs x.
Proof.
  induction bs as [ | b bs IH]; intros m1 m2 p H x; simpl; [ apply H | ].
  apply IH. intros y. now rewrite H.
Qed.

(** Writing back the bytes that are there changes nothing. *)
Lemma store_load_bytes (n : nat) :
  forall (m : mem) (p x : Z), store_bytes m p (load_bytes m p n) x = m x.
Proof.
  induction n as [ | n IH]; intros m p x; simpl; [ reflexivity | ].
  set (m' := fun y => if y =? p then m p else m y).
  assert (E : forall y, m' y = m y).
  { intros y. unfold m'. destruct (Z.eqb_spec y p); congruence. }
  rewrite (load_bytes_ext m m') by (intros y; now rewrite E).
  now rewrite IH.
Qed.

Lemma store_load (m : mem) (p : Z) (n : nat) (x : Z) :
  store m p n (load m p n) x = m x.
Proof.
  unfold store, load.
  rewrite <- (load_bytes_length m n p) at 1.
  rewrite split_le_combine. apply store_load_bytes.
Qed.

(** ** What an action leaves alone *)

Lemma exec_keeps_wait_supported (self : N) {X : Type} (e : action X)
    (s s' : state) (x : X) :
  writes_wait_supported e = false ->
  exec self e s = Ok x s' -> wait_supported s' = wait_supported s.
Proof.
  destruct e; simpl; unfold with_record; intros Q E; try discriminate;
    repeat match type of E with
      | context [match ?t with _ => _ end] => destruct t
      end;
    try discriminate; injection E as <- <-; reflexivity.
Qed.

Lemma exec_keeps_length (self : N) {X : Type} (e : action X)
    (s s' : state) (x : X) :
  exec self e s = Ok x s' ->
  length (wait_status s') = length (wait_status s).
Proof.
  destruct e; simpl; unfold with_record; intros E;
    repeat match type of E with
      | context [match ?t with _ => _ end] => destruct t
      end;
    try discriminate; injection E as <- <-; try reflexivity;
    apply length_insert.
Qed.

Lemma map_insert_same_field (l : list power_wait_status) (i : nat)
    (w w' : power_wait_status) :
  l !! i = Some w -> monitor_addr w' = monitor_addr w ->
  map monitor_addr (<[i := w']> l) = map monitor_addr l.
Proof.
  revert i. induction l as [ | a l IH]; intros [ | i] H E; simpl in *;
    try discriminate.
  - injection H as ->. now rewrite E.
  - f_equal. now apply IH.
Qed.

Lemma exec_keeps_monitor_addr (self : N) {X : Type} (e : action X)
    (s s' : state) (x : X) :
  writes_monitor_addr e = false ->
  exec self e s = Ok x s' -> same_monitor_addr s s'.
Proof.
  unfold same_monitor_addr.
  destruct e; simpl; unfold with_record; intros Q E; try discriminate;
    repeat match type of E with
      | context [match ?t with _ => _ end] => destruct t eqn:?
      end;
    try discriminate; injection E as <- <-; try reflexivity;
    simpl; eapply map_insert_same_field; eauto.
Qed.

Lemma exec_keeps_memory (self : N) {X : Type} (e : action X)
    (s s' : state) (x : X) :
  keeps_memory e = true ->
  exec self e s = Ok x s' -> same_memory s s'.
Proof.
  unfold same_memory.
  destruct e; simpl; unfold with_record; intros Q E; try discriminate;
    repeat match type of E with
      | context [match ?t with _ => _ end] => destruct t eqn:?
      end;
    try discriminate; injection E as <- <-; try reflexivity.
  intros y. simpl.
  match goal with
  | H : (_ =? _) = true, H' : (_ =? _) = true |- _ =>
      apply Z.eqb_eq in H, H'; subst
  end.
  apply store_load.
Qed.

(** ** What a program leaves alone *)

Lemma final_state_log {A : Type} (ev : event) (r : result A) :
  final_state (log ev r) = final_state r.
Proof. now destruct r. Qed.

(** If the actions of class [Q] keep [R], so does a program made of
    them. *)
Lemma run_preserves (self : N) (R : state -> state -> Prop)
    (Q : forall X, action X -> bool) :
  (forall s, R s s) ->
  (forall s1 s2 s3, R s1 s2 -> R s2 s3 -> R s1 s3) ->
  (forall X (e : action X) s x s',
      Q X e = true -> exec self e s = Ok x s' -> R s s') ->
  forall A (p : prog A) s,
    all_actions Q p -> R s (final_state (run self p s)).
Proof.
  intros Rrefl Rtrans Rexec A p.
  induction p as [a | X e k IH]; intros s H; simpl.
  - apply Rrefl.
  - destruct H as [Qe Hk].
    destruct (exec self e s) as [x s' | | ] eqn:E; try apply Rrefl.
    rewrite final_state_log.
    eapply Rtrans; [ eapply Rexec; eassumption | apply IH, Hk ].
Qed.

(** Going through a program tree, one action after the other. *)
Ltac walk :=
  repeat first
    [ progress cbn [all_actions bind call negb]
    | split; [ first [ reflexivity | assumption | apply Z.eqb_refl ] | ]
    | exact Logic.I
    | intro
    | match goal with
      | |- context [if ?b then _ else _] => destruct b
      | |- context [match ?o with Some _ => _ | None => _ end] => destruct o
      end ].

Lemma monitor_no_flag_write (pmc : option rte_power_monitor_cond) (tsc : Z) :
  all_actions no_flag_write (monitor pmc tsc).
Proof.
  unfold rte_power_monitor, rte_power_monitor_end, __get_umwait_val. walk.
Qed.

Lemma pause_no_flag_write (tsc : Z) :
  all_actions no_flag_write (rte_power_pause tsc).
Proof. unfold rte_power_pause. walk. Qed.

Lemma wakeup_no_flag_write (lcore_id : N) :
  all_actions no_flag_write (wakeup lcore_id).
Proof. unfold rte_power_monitor_wakeup, __umwait_wakeup. walk. Qed.

Lemma pause_no_table_access (tsc : Z) :
  all_actions no_table_access (rte_power_pause tsc).
Proof. unfold rte_power_pause. walk. Qed.

Lemma wakeup_no_addr_write (lcore_id : N) :
  all_actions no_addr_write (wakeup lcore_id).
Proof. unfold rte_power_monitor_wakeup, __umwait_wakeup. walk. Qed.

Lemma wakeup_value_kept (lcore_id : N) :
  all_actions value_kept (wakeup lcore_id).
Proof.
  unfold rte_power_monitor_wakeup, __umwait_wakeup. walk.
Qed.

(** ** [rte_power_monitor_wakeup], [rte_power_pause] and the
    initialisation: what a run gives *)

Lemma put_record_set_memory (i : nat) (w : power_wait_status) (m : mem)
    (s : state) :
  put_record i w (set_memory m s) = set_memory m (put_record i w s).
Proof. reflexivity. Qed.

Lemma put_record_restore (i : nat) (w : power_wait_status) (s : state) :
  wait_status s !! i = Some w -> lock w = false ->
  put_record i {| lock := false; monitor_addr := monitor_addr w |} s = s.
Proof.
  intros H L. apply put_record_same. rewrite H. f_equal.
  destruct w as [l a]. simpl in *. now subst.
Qed.

Lemma run_wakeup_unsupported (self lcore_id : N) (s : state) :
  wait_supported s = false ->
  run self (wakeup lcore_id) s =
  Done (- ENOTSUP) s [Ev load_wait_supported false].
Proof.
  intros G. unfold rte_power_monitor_wakeup. cbn [bind call run exec].
  rewrite G. reflexivity.
Qed.

Lemma run_wakeup_out_of_range (self lcore_id : N) (s : state) :
  wait_supported s = true ->
  (RTE_MAX_LCORE <= lcore_id)%N ->
  run self (wakeup lcore_id) s =
  Done (- EINVAL) s [Ev load_wait_supported true].
Proof.
  intros G R. unfold rte_power_monitor_wakeup. cbn [bind call run exec].
  rewrite G. apply N.leb_le in R. cbn [negb]. rewrite R. reflexivity.
Qed.

(** No sleeper: the record is locked, read and unlocked. *)
Lemma run_wakeup_idle (self lcore_id : N) (s : state)
    (w : power_wait_status) :
  wait_supported s = true ->
  (lcore_id < RTE_MAX_LCORE)%N ->
  wait_status s !! N.to_nat lcore_id = Some w ->
  lock w = false ->
  monitor_addr w = 0 ->
  run self (wakeup lcore_id) s =
  Done 0 s
    [Ev load_wait_supported true;
     Ev (rte_spinlock_lock (N.to_nat lcore_id)) tt;
     Ev (load_monitor_addr (N.to_nat lcore_id)) 0;
     Ev (rte_spinlock_unlock (N.to_nat lcore_id)) tt].
Proof.
  intros G R H L M. unfold rte_power_monitor_wakeup.
  cbn [bind call run exec].
  rewrite G. apply N.leb_gt in R. cbn [negb]. rewrite R.
  cbn [bind call run exec].
  on_record H. rewrite L. on_record H. rewrite M.
  cbn [Z.eqb negb bind call run exec].
  on_record H. rewrite <- M, (put_record_restore _ _ _ H L).
  reflexivity.
Qed.

(** A sleeper: the watched address is touched under the lock. *)
Lemma run_wakeup_touch (self lcore_id : N) (s : state)
    (w : power_wait_status) :
  wait_supported s = true ->
  (lcore_id < RTE_MAX_LCORE)%N ->
  wait_status s !! N.to_nat lcore_id = Some w ->
  lock w = false ->
  monitor_addr w <> 0 ->
  let a := monitor_addr w in
  let v := load (memory s) a 8 in
  run self (wakeup lcore_id) s =
  Done 0 (set_memory (store (memory s) a 8 v) s)
    [Ev load_wait_supported true;
     Ev (rte_spinlock_lock (N.to_nat lcore_id)) tt;
     Ev (load_monitor_addr (N.to_nat lcore_id)) a;
     Ev (atomic_load_n a) v;
     Ev (atomic_compare_exchange_n a v v) (true, v);
     Ev (rte_spinlock_unlock (N.to_nat lcore_id)) tt].
Proof.
  intros G R H L M a v. unfold rte_power_monitor_wakeup, __umwait_wakeup.
  cbn [bind call run exec].
  rewrite G. apply N.leb_gt in R. cbn [negb]. rewrite R.
  cbn [bind call run exec].
  on_record H. rewrite L. on_record H.
  apply Z.eqb_neq in M. rewrite M.
  cbn [negb bind call run exec memory put_record set_wait_status].
  fold a. fold v. rewrite Z.eqb_refl.
  change (set_wait_status
            (<[N.to_nat lcore_id := {| lock := true; monitor_addr := a |}]>
               (wait_status s)) s)
    with (put_record (N.to_nat lcore_id)
            {| lock := true; monitor_addr := a |} s).
  rewrite <- put_record_set_memory.
  on_record H.
  rewrite put_record_set_memory.
  change {| lock := false; monitor_addr := a |}
    with {| lock := false; monitor_addr := monitor_addr w |}.
  rewrite (put_record_restore _ _ _ H L).
  reflexivity.
Qed.

Lemma run_pause (self : N) (tsc : Z) (s : state) :
  run self (rte_power_pause tsc) s =
  if wait_supported s
  then Done 0 s
         [Ev load_wait_supported true;
          Ev (tpause 0 (to_uint32 tsc) (to_uint32 (Z.shiftr tsc 32))) tt]
  else Done (- ENOTSUP) s [Ev load_wait_supported false].
Proof.
  unfold rte_power_pause. cbn [bind call run exec].
  destruct (wait_supported s); reflexivity.
Qed.

Lemma run_init (self : N) (s : state) :
  run self rte_power_intrinsics_init s =
  if power_monitor (cpu s) && power_pause (cpu s)
  then Done tt (set_wait_supported true s)
         [Ev rte_cpu_get_intrinsics_support (cpu s);
          Ev (store_wait_supported true) tt]
  else Done tt s [Ev rte_cpu_get_intrinsics_support (cpu s)].
Proof.
  unfold rte_power_intrinsics_init. cbn [bind call run exec].
  destruct (power_monitor (cpu s) && power_pause (cpu s)); reflexivity.
Qed.

(** ** Other lcores: the calls *)

Ltac holds_here :=
  unfold published_while_waiting, count_stores, monitor_armed;
  cbn [List.filter ev_test writes_monitor_addr existsb is_umonitor
       length orb app fold_left arm returned];
  repeat split; intros;
  first [ discriminate | lia | reflexivity
        | match goal with
          | H : is_Some None |- _ => now destruct H
          | H : Some _ = Some _ |- _ =>
              injection H as <-; first [ reflexivity | solve [ eauto ] ]
          end
        | solve [ eauto ] ].

Ltac whatever :=
  repeat first
    [ progress cbn [always_whatever bind call negb addr_after app]
    | rewrite Nat.eqb_refl
    | split; [ holds_here | ]
    | exact Logic.I
    | intros ? _
    | match goal with
      | |- context [if ?b then _ else _] => destruct b
      end ].

Lemma monitor_always_published (self : N)
    (pmc : option rte_power_monitor_cond) (tsc : Z) (a : option Z) :
  always_whatever (published_while_waiting (Monitor pmc tsc) a)
    (N.to_nat self) self (rte_power_monitor RTE_MAX_LCORE pmc tsc) a [].
Proof.
  unfold rte_power_monitor, rte_power_monitor_end.
  cbn [always_whatever bind call]. split; [ holds_here | ].
  intros x Gx. simpl in Gx. subst x. split; [ holds_here | ].
  intros b _. destruct b; cbn [negb always_whatever];
    [ | split; [ holds_here | exact Logic.I ] ].
  destruct (RTE_MAX_LCORE <=? self)%N; cbn [always_whatever];
    [ split; [ holds_here | exact Logic.I ] | ].
  destruct pmc as [c | ]; cbn [always_whatever];
    [ | split; [ holds_here | exact Logic.I ] ].
  destruct (__check_val_size (data_sz c) <? 0) eqn:V; cbn [always_whatever];
    [ split; [ holds_here | exact Logic.I ] | ].
  apply check_val_size_neg in V.
  rewrite (get_umwait_val_checked _ _ V).
  whatever.
Qed.

Lemma operation_stores_own (self : N) (o : operation) :
  all_actions_of self (stores_own RTE_MAX_LCORE self)
    (operation_prog RTE_MAX_LCORE o).
Proof.
  destruct o as [pmc tsc | tsc | lcore_id]; simpl.
  - unfold rte_power_monitor, rte_power_monitor_end, __get_umwait_val.
    cbn [all_actions_of bind call]. split; [ reflexivity | ].
    intros x Gx. simpl in Gx. subst x. split; [ reflexivity | ].
    intros b _. destruct b; cbn [negb all_actions_of]; [ | exact Logic.I ].
    destruct (RTE_MAX_LCORE <=? self)%N eqn:R; [ exact Logic.I | ].
    apply N.leb_gt, N.ltb_lt in R.
    repeat first
      [ progress cbn [all_actions_of bind call negb stores_own]
      | rewrite Nat.eqb_refl | rewrite R
      | split; [ reflexivity | ]
      | exact Logic.I
      | intros ? _
      | match goal with
        | |- context [if ?b then _ else _] => destruct b
        | |- context [match ?o with Some _ => _ | None => _ end] =>
            destruct o
        end ].
  - unfold rte_power_pause.
    repeat first
      [ progress cbn [all_actions_of bind call negb]
      | split; [ reflexivity | ] | exact Logic.I | intros ? _
      | match goal with
        | |- context [if ?b then _ else _] => destruct b
        end ].
  - unfold rte_power_monitor_wakeup, __umwait_wakeup.
    repeat first
      [ progress cbn [all_actions_of bind call negb]
      | split; [ reflexivity | ] | exact Logic.I | intros ? _
      | match goal with
        | |- context [if ?b then _ else _] => destruct b
        end ].
Qed.

Lemma operation_always_published (self : N) (o : operation) (a : option Z) :
  always_whatever (published_while_waiting o a) (N.to_nat self) self
    (operation_prog RTE_MAX_LCORE o) a [].
Proof.
  destruct o as [pmc tsc | tsc | lcore_id]; simpl.
  - apply monitor_always_published.
  - unfold rte_power_pause. whatever.
  - unfold rte_power_monitor_wakeup, __umwait_wakeup. whatever.
Qed.

(** ** [rte_power_monitor]: sleeping or not *)

(** C1: a call of [rte_power_monitor] that passes the checks returns 0.
    With a non-zero mask the value at the address is read once, at the
    width of the condition, and ANDed with the mask: if the result is the
    expected value no UMWAIT is executed, otherwise one is.  With a zero
    mask nothing is read and UMWAIT is executed, whatever the memory
    holds. *)
Theorem monitor_mask_short_circuit (self : N) (c : rte_power_monitor_cond)
    (tsc : Z) (s : state) :
  wait_supported s = true ->
  (self < RTE_MAX_LCORE)%N ->
  __check_val_size (data_sz c) = 0 ->
  lock_free (N.to_nat self) s ->
  let cur := load (memory s) (addr c) (Z.to_nat (data_sz c)) in
  let wait :=
    Ev (umwait 0 (to_uint32 tsc) (to_uint32 (Z.shiftr tsc 32))) tt in
  exists s' tr,
    run self (monitor (Some c) tsc) s = Done 0 s' tr /\
    (mask c <> 0 ->
       List.filter is_volatile_load tr =
         [Ev (volatile_load (addr c) (Z.to_nat (data_sz c))) cur] /\
       (Z.land cur (mask c) = val c -> List.filter is_umwait tr = []) /\
       (Z.land cur (mask c) <> val c -> List.filter is_umwait tr = [wait])) /\
    (mask c = 0 ->
       List.filter is_volatile_load tr = [] /\
       List.filter is_umwait tr = [wait]).
Proof.
  intros G R V F cur wait.
  destruct (lock_free_record _ _ F) as (w & H & L).
  rewrite (run_monitor self c tsc s w G R V H L).
  eexists _, _. split; [ reflexivity | ].
  unfold monitor_wait_events. fold cur.
  split.
  - intros M. apply Z.eqb_neq in M. rewrite M.
    split; [ | split ].
    + destruct (Z.land cur (mask c) =? val c); reflexivity.
    + intros E. apply Z.eqb_eq in E. rewrite E. reflexivity.
    + intros E. apply Z.eqb_neq in E. rewrite E. reflexivity.
  - intros M. apply Z.eqb_eq in M. rewrite M. split; reflexivity.
Qed.

(** C2: a call of [rte_power_monitor] that passes the checks returns with
    the record of the calling lcore unlocked and its [monitor_addr] back to
    [NULL], on the path that waits and on the path that does not: the last
    three events are lock, store of [NULL], unlock.  The other records are
    as they were.  Whenever the call has come to its [return], the value is
    0 and the record is in that state.  With other lcores acting in between,
    too, a call that has stored an address and has come to its [return] has
    left [NULL] in the record. *)
Theorem monitor_erases_sleep_address (self : N) (c : rte_power_monitor_cond)
    (tsc : Z) (s : state) :
  wait_supported s = true ->
  (self < RTE_MAX_LCORE)%N ->
  __check_val_size (data_sz c) = 0 ->
  lock_free (N.to_nat self) s ->
  let erased := Some {| lock := false; monitor_addr := 0 |} in
  (exists s' tr,
     run self (monitor (Some c) tsc) s =
       Done 0 s'
         (tr ++ [Ev (rte_spinlock_lock (N.to_nat self)) tt;
                 Ev (store_monitor_addr (N.to_nat self) 0) tt;
                 Ev (rte_spinlock_unlock (N.to_nat self)) tt]) /\
     wait_status s' !! N.to_nat self = erased /\
     (forall j, j <> N.to_nat self ->
                wait_status s' !! j = wait_status s !! j)) /\
  (forall cfg r,
     reach self (start (monitor (Some c) tsc) s) cfg ->
     cfg_prog cfg = Ret r ->
     r = 0 /\ wait_status (cfg_state cfg) !! N.to_nat self = erased) /\
  (forall cfg,
     reach_among self (start (monitor (Some c) tsc) s) cfg ->
     is_Some (returned (cfg_prog cfg)) ->
     (1 <= count_stores (cfg_trace cfg))%nat ->
     published (N.to_nat self) 0 (cfg_state cfg)).
Proof.
  intros G R V F erased.
  destruct (lock_free_record _ _ F) as (w & H & L).
  pose proof (run_monitor self c tsc s w G R V H L) as E.
  split; [ | split ].
  - rewrite E. eexists _, _. split; [ | split ].
    + rewrite app_assoc. reflexivity.
    + eapply put_record_lookup, H.
    + intros j J. apply put_record_lookup_ne. congruence.
  - intros cfg r Rc Hr.
    destruct (reach_run _ _ _ Rc) as (tr & _ & Q).
    unfold start in Q. cbn [cfg_prog cfg_state] in Q.
    rewrite E, Hr in Q. cbn [run prepend] in Q.
    injection Q as <- <- _. split; [ reflexivity | ].
    eapply put_record_lookup, H.
  - intros cfg Rc Hr C1.
    pose proof (always_whatever_among _ _ _ _ Rc
                  (monitor_always_published self (Some c) tsc _))
      as (_ & _ & _ & H2 & _ & Le & Hn).
    apply H2. specialize (Hn Hr). lia.
Qed.

(** ** [rte_power_monitor]: the states on the way *)

Lemma published_put_record (i : nat) (w w0 : power_wait_status) (s : state) :
  wait_status s !! i = Some w0 ->
  published i (monitor_addr w) (put_record i w s).
Proof.
  intros H. unfold published. now rewrite (put_record_lookup _ _ _ _ H).
Qed.

(** In a proof of [always]: the invariant at the configuration at hand. *)
Ltac now_holds :=
  intros E;
  first [ discriminate E
        | left; split; [ reflexivity | solve [ auto ] ]
        | right; split; [ reflexivity | solve [ auto ] ] ].

Lemma monitor_always_published_once_armed (self : N)
    (c : rte_power_monitor_cond) (tsc : Z) (s : state)
    (w : power_wait_status) :
  wait_supported s = true ->
  (self < RTE_MAX_LCORE)%N ->
  __check_val_size (data_sz c) = 0 ->
  wait_status s !! N.to_nat self = Some w ->
  lock w = false ->
  always (published_once_armed (N.to_nat self) c) self
    (monitor (Some c) tsc) s [].
Proof.
  intros G R V H L.
  assert (P : forall l, published (N.to_nat self) (addr c)
                (put_record (N.to_nat self)
                   {| lock := l; monitor_addr := addr c |} s)).
  { intros l. apply (published_put_record _ {| lock := l |} _ _ H). }
  assert (P0 : forall l, published (N.to_nat self) 0
                (put_record (N.to_nat self)
                   {| lock := l; monitor_addr := 0 |} s)).
  { intros l. apply (published_put_record _ {| lock := l |} _ _ H). }
  unfold rte_power_monitor, rte_power_monitor_end.
  cbn [bind call always exec]. rewrite G. cbn [negb].
  apply N.leb_gt in R. rewrite R.
  apply check_val_size_neg in V as V'. rewrite V'.
  rewrite (get_umwait_val_checked _ _ V).
  cbn [bind call always exec app].
  on_record H. rewrite L. do 2 on_record H.
  unfold published_once_armed.
  repeat (split; [ now_holds | ]).
  destruct (mask c =? 0) eqn:M; cbn [negb bind call always exec app].
  - do 3 on_record H. repeat (split; [ now_holds | ]). exact Logic.I.
  - apply Z.eqb_neq in M.
    destruct (Z.land _ (mask c) =? val c) eqn:E0;
      cbn [negb bind call always exec app]; do 3 on_record H.
    + repeat (split; [ now_holds | ]). exact Logic.I.
    + repeat (split; [ now_holds | ]). exact Logic.I.
Qed.

(** C3 (as amended): in a call of [rte_power_monitor] that passes the
    checks, the target address is stored into [monitor_addr] of the calling
    lcore under the lock, then UMONITOR is executed, then the lock is
    released.  In every configuration reached on the way the events so far
    are a prefix of that sequence, and once UMONITOR has been executed in
    the call the record holds the target address until the erase at [end],
    and [NULL] from the erase on: the events of the call have one store to
    [monitor_addr] and the record holds the target address, or they have
    two and it holds [NULL].  With other lcores acting in between, too,
    UMONITOR is not executed before the store, the last UMONITOR of the
    call that no UMWAIT has followed is on the target address, from the
    store to the erase the record holds the target address, and from the
    erase on it holds [NULL]. *)
Theorem monitor_publishes_before_arming (self : N)
    (c : rte_power_monitor_cond) (tsc : Z) (s : state) :
  wait_supported s = true ->
  (self < RTE_MAX_LCORE)%N ->
  __check_val_size (data_sz c) = 0 ->
  lock_free (N.to_nat self) s ->
  let i := N.to_nat self in
  let full :=
    [Ev rte_lcore_id self; Ev load_wait_supported true;
     Ev (rte_spinlock_lock i) tt;
     Ev (store_monitor_addr i (addr c)) tt;
     Ev (umonitor (addr c)) tt;
     Ev (rte_spinlock_unlock i) tt]
    ++ monitor_wait_events c tsc (memory s)
    ++ [Ev (rte_spinlock_lock i) tt;
        Ev (store_monitor_addr i 0) tt;
        Ev (rte_spinlock_unlock i) tt] in
  (exists s', run self (monitor (Some c) tsc) s = Done 0 s' full) /\
  (forall cfg,
     reach self (start (monitor (Some c) tsc) s) cfg ->
     (exists rest, full = cfg_trace cfg ++ rest) /\
     (existsb is_umonitor (cfg_trace cfg) = true ->
      (count_stores (cfg_trace cfg) = 1%nat /\
       published i (addr c) (cfg_state cfg)) \/
      (count_stores (cfg_trace cfg) = 2%nat /\
       published i 0 (cfg_state cfg)))) /\
  (forall cfg,
     reach_among self (start (monitor (Some c) tsc) s) cfg ->
     (existsb is_umonitor (cfg_trace cfg) = true ->
      (1 <= count_stores (cfg_trace cfg) <= 2)%nat) /\
     (forall a, monitor_armed (cfg_trace cfg) = Some a -> a = addr c) /\
     (count_stores (cfg_trace cfg) = 1%nat ->
      published i (addr c) (cfg_state cfg)) /\
     (count_stores (cfg_trace cfg) = 2%nat ->
      published i 0 (cfg_state cfg))).
Proof.
  intros G R V F i full.
  destruct (lock_free_record _ _ F) as (w & H & L).
  pose proof (run_monitor self c tsc s w G R V H L) as E. fold i full in E.
  split; [ eexists; exact E | ]. split.
  - intros cfg Rc. split.
    + destruct (reach_run _ _ _ Rc) as (tr & T & Q).
      unfold start in T, Q. cbn [cfg_prog cfg_state cfg_trace app] in T, Q.
      rewrite E in Q.
      destruct (run self (cfg_prog cfg) (cfg_state cfg)) as [a1 s1 t1 | | ];
        try discriminate.
      simpl in Q. injection Q as _ _ ->. exists t1. now rewrite T.
    + apply (always_reach (published_once_armed i c) self _ _ Rc).
      apply (monitor_always_published_once_armed self c tsc s w G R V H L).
  - intros cfg Rc.
    pose proof (always_whatever_among _ _ _ _ Rc
                  (monitor_always_published self (Some c) tsc _))
      as (U & _ & H1 & H2 & Ar & Le & _).
    split; [ intros Um; split; [ exact (U Um) | exact Le ] | ].
    split; [ | split ].
    + intros a Ha. destruct (Ar a Ha) as (c' & tsc' & Ec & Ea).
      now injection Ec as <- _.
    + intros C1. destruct (H1 C1) as (c' & tsc' & Ec & Ea).
      injection Ec as <- _. exact Ea.
    + intros C2. exact (H2 C2).
Qed.

(** ** Errors *)

Lemma run_wakeup_valid_returns (self lcore_id : N) (s s' : state) (r : Z)
    (tr : list event) :
  wait_supported s = true ->
  (lcore_id < RTE_MAX_LCORE)%N ->
  run self (wakeup lcore_id) s = Done r s' tr ->
  r = 0.
Proof.
  intros G R. unfold rte_power_monitor_wakeup. cbn [bind call run exec].
  rewrite G. apply N.leb_gt in R. cbn [negb]. rewrite R.
  match goal with
  | |- log _ (run self ?p s) = _ -> _ =>
      assert (H : all_returns (fun r => r = 0) p)
  end.
  { cbn [all_returns bind call]. intros _ a.
    apply all_returns_bind. intros _. cbn [all_returns]. auto. }
  intros E.
  match type of E with
  | log _ ?q = _ => destruct q as [a1 s1 tr1 | | ] eqn:Q
  end; try discriminate.
  simpl in E. injection E as <- _ _.
  eapply (run_all_returns self (fun r => r = 0)); [ exact H | exact Q ].
Qed.

(** C4: an operation that returns [-ENOTSUP] or [-EINVAL] returns with the
    state it was called in, and none of its events is an access to a wait
    record or to the watched memory.  With the flag false each of the three
    operations returns [-ENOTSUP] that way. *)
Theorem errors_touch_nothing (self : N) (o : operation) (s : state) :
  (wait_supported s = false ->
   exists tr,
     run self (operation_prog RTE_MAX_LCORE o) s = Done (- ENOTSUP) s tr /\
     forallb quiet tr = true) /\
  (forall r s' tr,
     run self (operation_prog RTE_MAX_LCORE o) s = Done r s' tr ->
     r = - ENOTSUP \/ r = - EINVAL ->
     s' = s /\ forallb quiet tr = true).
Proof.
  split.
  - intros G. destruct o as [pmc tsc | tsc | lcore_id]; cbn [operation_prog].
    + rewrite (run_monitor_unsupported _ _ _ _ G). now eexists.
    + rewrite run_pause, G. now eexists.
    + rewrite (run_wakeup_unsupported _ _ _ G). now eexists.
  - intros r s' tr E Hr.
    assert (r <> 0) by (destruct Hr; subst; discriminate).
    destruct (wait_supported s) eqn:G.
    2: { destruct o as [pmc tsc | tsc | lcore_id]; cbn [operation_prog] in E.
         - rewrite (run_monitor_unsupported _ _ _ _ G) in E.
           now injection E as <- <- <-.
         - rewrite run_pause, G in E. now injection E as <- <- <-.
         - rewrite (run_wakeup_unsupported _ _ _ G) in E.
           now injection E as <- <- <-. }
    destruct o as [pmc tsc | tsc | lcore_id]; cbn [operation_prog] in E.
    + destruct (N.le_gt_cases RTE_MAX_LCORE self) as [R | R].
      { rewrite (run_monitor_no_lcore _ _ _ _ G R) in E.
        now injection E as <- <- <-. }
      destruct pmc as [c | ].
      2: { rewrite (run_monitor_null _ _ _ G R) in E.
           now injection E as <- <- <-. }
      destruct (check_val_size_values (data_sz c)) as [V | V].
      * exfalso. eauto using run_monitor_valid_returns.
      * rewrite (run_monitor_bad_size _ _ _ _ G R) in E
          by (rewrite V; discriminate).
        now injection E as <- <- <-.
    + rewrite run_pause, G in E. now injection E as <- <- <-.
    + destruct (N.le_gt_cases RTE_MAX_LCORE lcore_id) as [R | R].
      * rewrite (run_wakeup_out_of_range _ _ _ G R) in E.
        now injection E as <- <- <-.
      * exfalso. eauto using run_wakeup_valid_returns.
Qed.

(** X13: with the flag true, [rte_power_monitor] returns [-EINVAL] if and
    only if the calling thread has no lcore id below [RTE_MAX_LCORE], or the
    condition is [NULL], or its width is not 1, 2, 4 or 8.  Each of these
    rejections returns in the state the call began in, after the read of
    the lcore id and of the flag and nothing else; an lcore id that is not
    below [RTE_MAX_LCORE] is rejected whatever the condition is.  (The three
    tests have no effect and give the same result: in which order they are
    made cannot be told from a run.) *)
Theorem monitor_invalid_argument (self : N)
    (pmc : option rte_power_monitor_cond) (tsc : Z) (s : state) :
  wait_supported s = true ->
  let rejected :=
    Done (- EINVAL) s [Ev rte_lcore_id self; Ev load_wait_supported true] in
  ((exists s' tr, run self (monitor pmc tsc) s = Done (- EINVAL) s' tr) <->
   ((RTE_MAX_LCORE <= self)%N \/ pmc = None \/
    exists c, pmc = Some c /\ ~ valid_width (data_sz c))) /\
  ((RTE_MAX_LCORE <= self)%N ->
   forall pmc', run self (monitor pmc' tsc) s = rejected) /\
  ((self < RTE_MAX_LCORE)%N ->
   run self (monitor None tsc) s = rejected) /\
  ((self < RTE_MAX_LCORE)%N ->
   forall c, ~ valid_width (data_sz c) ->
             run self (monitor (Some c) tsc) s = rejected).
Proof.
  intros G rejected.
  assert (O1 : (RTE_MAX_LCORE <= self)%N ->
               forall pmc', run self (monitor pmc' tsc) s = rejected).
  { intros R pmc'. now apply run_monitor_no_lcore. }
  assert (O2 : (self < RTE_MAX_LCORE)%N ->
               run self (monitor None tsc) s = rejected).
  { intros R. now apply run_monitor_null. }
  assert (O3 : (self < RTE_MAX_LCORE)%N ->
               forall c, ~ valid_width (data_sz c) ->
                         run self (monitor (Some c) tsc) s = rejected).
  { intros R c V. apply run_monitor_bad_size; auto.
    now rewrite check_val_size_0. }
  repeat split; auto.
  - intros (s' & tr & E).
    destruct (N.le_gt_cases RTE_MAX_LCORE self) as [R | R]; [ now left | ].
    right. destruct pmc as [c | ]; [ right | now left ].
    exists c. split; [ reflexivity | ]. intros V.
    apply check_val_size_0 in V.
    pose proof (run_monitor_valid_returns _ _ _ _ _ _ _ G R V E).
    discriminate.
  - intros [R | [-> | (c & -> & V)]].
    + rewrite O1 by assumption. now eexists _, _.
    + destruct (N.le_gt_cases RTE_MAX_LCORE self) as [R | R].
      * rewrite O1 by assumption. now eexists _, _.
      * rewrite O2 by assumption. now eexists _, _.
    + destruct (N.le_gt_cases RTE_MAX_LCORE self) as [R | R].
      * rewrite O1 by assumption. now eexists _, _.
      * rewrite O3 by assumption. now eexists _, _.
Qed.

(** ** [rte_power_monitor_wakeup] *)

(** C6: with the flag true, [rte_power_monitor_wakeup] returns [-EINVAL]
    for an lcore id that is not below [RTE_MAX_LCORE].  For an lcore id
    below it, it returns 0: with [monitor_addr] of the target [NULL] the
    record is locked, read and unlocked, nothing is touched and the state
    is as before; with an address there, the address is touched between
    the lock and the unlock. *)
Theorem wakeup_returns (self lcore_id : N) (s : state) :
  wait_supported s = true ->
  let i := N.to_nat lcore_id in
  ((RTE_MAX_LCORE <= lcore_id)%N ->
   run self (wakeup lcore_id) s =
   Done (- EINVAL) s [Ev load_wait_supported true]) /\
  ((lcore_id < RTE_MAX_LCORE)%N ->
   lock_free i s ->
   (published i 0 s ->
    run self (wakeup lcore_id) s =
    Done 0 s
      [Ev load_wait_supported true; Ev (rte_spinlock_lock i) tt;
       Ev (load_monitor_addr i) 0; Ev (rte_spinlock_unlock i) tt]) /\
   (forall a,
      published i a s -> a <> 0 ->
      let v := load (memory s) a 8 in
      exists s',
        run self (wakeup lcore_id) s =
        Done 0 s'
          [Ev load_wait_supported true; Ev (rte_spinlock_lock i) tt;
           Ev (load_monitor_addr i) a;
           Ev (atomic_load_n a) v;
           Ev (atomic_compare_exchange_n a v v) (true, v);
           Ev (rte_spinlock_unlock i) tt] /\
        wait_supported s' = true /\
        wait_status s' = wait_status s)).
Proof.
  intros G i. split.
  - intros R. now apply run_wakeup_out_of_range.
  - intros R F. destruct (lock_free_record _ _ F) as (w & H & L). split.
    + intros P. destruct (published_record _ _ _ P) as (w' & H' & M).
      assert (w' = w) by congruence. subst w'.
      now apply (run_wakeup_idle self lcore_id s w).
    + intros a P M v. destruct (published_record _ _ _ P) as (w' & H' & M').
      assert (w' = w) by congruence. subst w' a.
      rewrite (run_wakeup_touch self lcore_id s w G R H L M).
      eexists. split; [ reflexivity | ]. split; [ exact G | reflexivity ].
Qed.

(** C7: the touch of [rte_power_monitor_wakeup] keeps the value.  With a
    sleeper in the record, the 64 bits at the watched address are loaded
    and a compare-and-swap expecting that value writes it back: it
    succeeds, every byte of memory is what it was, so the 64 bits at the
    address are, and the table is as before.  In any state, whatever a call
    of [rte_power_monitor_wakeup] does, it stores to no [monitor_addr] and
    leaves every byte of memory and every [monitor_addr] as it was. *)
Theorem wakeup_touch_keeps_value (self lcore_id : N) (s : state) :
  (wait_supported s = true ->
   (lcore_id < RTE_MAX_LCORE)%N ->
   lock_free (N.to_nat lcore_id) s ->
   forall a,
     published (N.to_nat lcore_id) a s -> a <> 0 ->
     let v := load (memory s) a 8 in
     exists s' tr1 tr2,
       run self (wakeup lcore_id) s =
       Done 0 s'
         (tr1 ++ [Ev (atomic_load_n a) v;
                  Ev (atomic_compare_exchange_n a v v) (true, v)] ++ tr2) /\
       (forall x, memory s' x = memory s x) /\
       load (memory s') a 8 = v /\
       wait_status s' = wait_status s) /\
  all_actions no_addr_write (wakeup lcore_id) /\
  same_memory s (final_state (run self (wakeup lcore_id) s)) /\
  same_monitor_addr s (final_state (run self (wakeup lcore_id) s)).
Proof.
  split; [ | split; [ | split ] ].
  - intros G R F a P M v.
    destruct (lock_free_record _ _ F) as (w & H & L).
    destruct (published_record _ _ _ P) as (w' & H' & M').
    assert (w' = w) by congruence. subst w' a.
    rewrite (run_wakeup_touch self lcore_id s w G R H L M).
    eexists _, [_; _; _], [_]. split; [ reflexivity | ].
    assert (K : forall x,
               store (memory s) (monitor_addr w) 8 v x = memory s x).
    { intros x. apply store_load. }
    split; [ exact K | ]. split; [ | reflexivity ].
    unfold load. cbn [memory set_memory].
    now rewrite (load_bytes_ext _ (memory s) 8 K).
  - apply wakeup_no_addr_write.
  - apply (run_preserves self same_memory value_kept).
    + now intros s0 x.
    + intros s1 s2 s3 H1 H2 x. now rewrite H2, H1.
    + intros X e s0 x s1 Q E. eapply exec_keeps_memory; eassumption.
    + apply wakeup_value_kept.
  - apply (run_preserves self same_monitor_addr no_addr_write).
    + now intros s0.
    + intros s1 s2 s3 H1 H2. unfold same_monitor_addr in *. congruence.
    + intros X e s0 x s1 Q E. unfold no_addr_write in Q.
      apply negb_true_iff in Q. eapply exec_keeps_monitor_addr; eassumption.
    + apply wakeup_no_addr_write.
Qed.

(** ** [rte_power_pause] *)

(** C8: [rte_power_pause] returns [-ENOTSUP] when the flag is false, and
    otherwise executes TPAUSE with the two halves of the deadline and
    returns 0.  Either way the state is the one it was called in, and no
    action of the function is an access to the wait state table. *)
Theorem pause_leaves_table_alone (self : N) (tsc : Z) (s : state) :
  run self (rte_power_pause tsc) s =
  (if wait_supported s
   then Done 0 s
          [Ev load_wait_supported true;
           Ev (tpause 0 (to_uint32 tsc) (to_uint32 (Z.shiftr tsc 32))) tt]
   else Done (- ENOTSUP) s [Ev load_wait_supported false]) /\
  wait_status (final_state (run self (rte_power_pause tsc) s)) =
  wait_status s /\
  all_actions no_table_access (rte_power_pause tsc).
Proof.
  split; [ apply run_pause | split ].
  - rewrite run_pause. now destruct (wait_supported s).
  - apply pause_no_table_access.
Qed.

(** ** The flag *)

Lemma operation_no_flag_write (o : operation) :
  all_actions no_flag_write (operation_prog RTE_MAX_LCORE o).
Proof.
  destruct o; simpl.
  - apply monitor_no_flag_write.
  - apply pause_no_flag_write.
  - apply wakeup_no_flag_write.
Qed.

Lemma operation_keeps_flag (self : N) (o : operation) (s : state) :
  wait_supported (final_state (run self (operation_prog RTE_MAX_LCORE o) s))
  = wait_supported s.
Proof.
  apply (run_preserves self
           (fun s s' => wait_supported s' = wait_supported s) no_flag_write).
  - reflexivity.
  - intros s1 s2 s3 H1 H2. congruence.
  - intros X e s0 x s1 Q E. apply negb_true_iff in Q.
    eapply exec_keeps_wait_supported; eassumption.
  - apply operation_no_flag_write.
Qed.

Lemma init_flag (self : N) (s : state) :
  wait_supported (final_state (run self rte_power_intrinsics_init s)) =
  wait_supported s || (power_monitor (cpu s) && power_pause (cpu s)).
Proof.
  rewrite run_init.
  destruct (power_monitor (cpu s) && power_pause (cpu s)); simpl.
  - now rewrite orb_true_r.
  - now rewrite orb_false_r.
Qed.

(** C9: the flag starts false; the initialisation run from there leaves it
    true if and only if the platform reports both the monitor and the pause
    instruction; the initialisation never makes a true flag false; no action
    of the three operations writes the flag and each leaves it as it was; so
    after any sequence of calls a true flag is still true. *)
Theorem wait_supported_set_once (m : mem) (c : rte_cpu_intrinsics) :
  let s0 := initial_state RTE_MAX_LCORE m c in
  wait_supported s0 = false /\
  (forall self,
     wait_supported (final_state (run self rte_power_intrinsics_init s0))
       = true <->
     power_monitor c = true /\ power_pause c = true) /\
  (forall self s,
     wait_supported s = true ->
     wait_supported (final_state (run self rte_power_intrinsics_init s))
       = true) /\
  (forall o, all_actions no_flag_write (operation_prog RTE_MAX_LCORE o)) /\
  (forall self o s,
     wait_supported
       (final_state (run self (operation_prog RTE_MAX_LCORE o) s))
     = wait_supported s) /\
  (forall l s,
     wait_supported s = true ->
     wait_supported (do_calls RTE_MAX_LCORE l s) = true).
Proof.
  intros s0. split; [ reflexivity | ]. split; [ | split; [ | split; [ | split ] ] ].
  - intros self. rewrite init_flag. simpl. apply andb_true_iff.
  - intros self s G. now rewrite init_flag, G.
  - apply operation_no_flag_write.
  - apply operation_keeps_flag.
  - intros l. unfold do_calls.
    induction l as [ | [self a] l IH]; intros s G; cbn [fold_left].
    + exact G.
    + apply IH. unfold do_call. cbn [fst snd]. destruct a as [ | o].
      * now rewrite init_flag, G.
      * now rewrite operation_keeps_flag.
Qed.

(** ** Assertions and array bounds *)

Lemma is_aborted_log {A : Type} (ev : event) (r : result A) :
  is_aborted (log ev r) = is_aborted r.
Proof. now destruct r. Qed.

Lemma exec_safe (self : N) (n : nat) {X : Type} (e : action X) (s : state) :
  safe_action n X e = true ->
  length (wait_status s) = n ->
  exec self e s <> Abort.
Proof.
  intros Q Len.
  destruct e; simpl in *; unfold with_record; try discriminate;
    try (apply Nat.ltb_lt in Q; rewrite <- Len in Q;
         destruct (lookup_lt_is_Some_2 _ _ Q) as [w ->];
         try destruct (lock w); discriminate).
  - destruct (_ =? _); discriminate.
  - now rewrite Q.
Qed.

Lemma run_safe (self : N) (n : nat) {A : Type} (p : prog A) :
  all_actions (safe_action n) p ->
  forall s, length (wait_status s) = n -> is_aborted (run self p s) = false.
Proof.
  induction p as [a | X e k IH]; intros H s Len; simpl; [ reflexivity | ].
  destruct H as [Q Hk].
  destruct (exec self e s) as [x s' | | ] eqn:E.
  - rewrite is_aborted_log. apply IH; [ apply Hk | ].
    now rewrite (exec_keeps_length _ _ _ _ _ E).
  - reflexivity.
  - now destruct (exec_safe self n e s Q Len).
Qed.

Lemma monitor_safe (pmc : option rte_power_monitor_cond) (tsc : Z) :
  all_actions (safe_action (N.to_nat RTE_MAX_LCORE)) (monitor pmc tsc).
Proof.
  unfold rte_power_monitor, rte_power_monitor_end.
  cbn [bind call all_actions]. split; [ reflexivity | ]. intros x.
  split; [ reflexivity | ]. intros b.
  destruct b; cbn [negb all_actions]; [ | exact Logic.I ].
  destruct (RTE_MAX_LCORE <=? x)%N eqn:R; [ exact Logic.I | ].
  assert (B : (N.to_nat x <? N.to_nat RTE_MAX_LCORE)%nat = true).
  { apply Nat.ltb_lt. apply N.leb_gt in R. lia. }
  destruct pmc as [c | ]; [ | exact Logic.I ].
  destruct (__check_val_size (data_sz c) <? 0) eqn:V; [ exact Logic.I | ].
  apply check_val_size_neg in V.
  rewrite (get_umwait_val_checked _ _ V). walk.
Qed.

Lemma monitor_no_assert (pmc : option rte_power_monitor_cond) (tsc : Z) :
  all_actions no_assert (monitor pmc tsc).
Proof.
  unfold rte_power_monitor, rte_power_monitor_end.
  cbn [bind call all_actions]. split; [ reflexivity | ]. intros x.
  split; [ reflexivity | ]. intros b.
  destruct b; cbn [negb all_actions]; [ | exact Logic.I ].
  destruct (RTE_MAX_LCORE <=? x)%N; [ exact Logic.I | ].
  destruct pmc as [c | ]; [ | exact Logic.I ].
  destruct (__check_val_size (data_sz c) <? 0) eqn:V; [ exact Logic.I | ].
  apply check_val_size_neg in V.
  rewrite (get_umwait_val_checked _ _ V). walk.
Qed.

(** C10: for a width that [__check_val_size] accepts, [__get_umwait_val] is
    the read of that many bytes: it returns the value read and its
    [default] branch, with the assertion, is not taken.  So no action of
    [rte_power_monitor] is an [RTE_ASSERT], and with a table of
    [RTE_MAX_LCORE] records no call of it aborts. *)
Theorem get_umwait_val_total (p sz : Z) :
  __check_val_size sz = 0 ->
  __get_umwait_val p sz = call (volatile_load p (Z.to_nat sz)) /\
  all_actions no_assert (__get_umwait_val p sz) /\
  (forall self s,
     run self (__get_umwait_val p sz) s =
     Done (load (memory s) p (Z.to_nat sz)) s
       [Ev (volatile_load p (Z.to_nat sz))
          (load (memory s) p (Z.to_nat sz))]) /\
  (forall pmc tsc, all_actions no_assert (monitor pmc tsc)) /\
  (forall self pmc tsc s,
     table_ok RTE_MAX_LCORE s ->
     is_aborted (run self (monitor pmc tsc) s) = false).
Proof.
  intros V. rewrite (get_umwait_val_checked p sz V).
  split; [ reflexivity | ]. split; [ walk | ].
  split; [ reflexivity | ]. split.
  - apply monitor_no_assert.
  - intros self pmc tsc s T. eapply run_safe; [ apply monitor_safe | exact T ].
Qed.

(** ** The threads together *)

Lemma returned_null (o : operation) (a0 a : option Z) (r : Z)
    (tr : list event) :
  null_or_none a0 ->
  published_while_waiting o a0 (Some r) a tr ->
  null_or_none a.
Proof.
  intros N0 (_ & H0 & _ & H2 & _ & Le & Hr).
  assert (count_stores tr <> 1%nat) by (apply Hr; eauto).
  destruct (count_stores tr) as [ | [ | [ | n]]] eqn:E; try lia.
  - now rewrite H0.
  - left. now apply H2.
Qed.

Lemma sys_idle_ok (y : state * list thread) :
  one_thread_per_lcore RTE_MAX_LCORE (snd y) ->
  sys_idle y -> sys_ok RTE_MAX_LCORE y.
Proof.
  intros D [Hs Ht]. split; [ exact D | ].
  intros t th H.
  rewrite Forall_forall in Ht.
  destruct (Ht th) as [[r Hr] Htr].
  { apply list_elem_of_lookup. eauto. }
  destruct (th_prog th) as [r' | ] eqn:P; [ | discriminate ].
  unfold thread_ok. rewrite P.
  split; [ | exact Logic.I ].
  exists (monitor_addr <$> wait_status (fst y) !! N.to_nat (th_lcore th)).
  split.
  - destruct (wait_status (fst y) !! N.to_nat (th_lcore th)) as [w | ] eqn:L;
      [ left | now right ].
    simpl. f_equal. rewrite Forall_forall in Hs. apply Hs.
    apply list_elem_of_lookup. eauto.
  - rewrite Htr. simpl. split; [ | exact Logic.I ]. holds_here.
Qed.

Lemma sys_step_ok (y y' : state * list thread) :
  sys_ok RTE_MAX_LCORE y -> sys_step RTE_MAX_LCORE y y' ->
  sys_ok RTE_MAX_LCORE y'.
Proof.
  intros [D Ok] St.
  destruct St as [s ths t th c' H St | s ths t th r o H P | s ths m];
    unfold sys_ok; cbn [fst snd] in *.
  - split.
    + intros u1 u2 th1 th2 H1 H2 Ne.
      apply list_lookup_insert_Some in H1, H2.
      destruct H1 as [(<- & <- & _) | (N1 & H1)],
               H2 as [(<- & <- & _) | (N2 & H2)]; simpl; eauto; congruence.
    + destruct (Ok t th H) as [(a0 & N0 & Al) Own].
      destruct (step_all_actions_of (th_lcore th) _
                  (Cfg (th_prog th) s (th_trace th)) c' Own St)
        as (Own' & X & e & x & Qe & E). simpl in E.
      intros u thu Hu. apply list_lookup_insert_Some in Hu.
      destruct Hu as [(<- & <- & _) | (Ne & Hu)].
      * split; [ | exact Own' ]. exists a0. split; [ exact N0 | ].
        unfold step in St. simpl in *.
        destruct (th_prog th) as [r | X' e' k]; [ discriminate | ].
        destruct (exec (th_lcore th) e' s) as [x' s1 | | ] eqn:E';
          try discriminate.
        injection St as <-. simpl in *.
        rewrite (exec_addr_after _ _ _ _ _ _ E').
        apply Al. eapply exec_gives, E'.
      * destruct (Ok u thu Hu) as [(b0 & Nb & Bl) OwnU].
        split; [ | exact OwnU ]. exists b0. split; [ exact Nb | ].
        assert (Rl : rely (N.to_nat (th_lcore thu)) s (cfg_state c')).
        { eapply exec_stores_own; [ exact Qe | | exact E ].
          destruct (N.lt_ge_cases (th_lcore th) RTE_MAX_LCORE) as [Lt | Ge];
            [ left | now right ].
          intros Eq. apply N2Nat.inj in Eq.
          apply (D t u th thu H Hu Ne Lt). congruence. }
        unfold rely in Rl. now rewrite Rl.
  - split.
    + intros u1 u2 th1 th2 H1 H2 Ne.
      apply list_lookup_insert_Some in H1, H2.
      destruct H1 as [(<- & <- & _) | (N1 & H1)],
               H2 as [(<- & <- & _) | (N2 & H2)]; simpl; eauto; congruence.
    + intros u thu Hu. apply list_lookup_insert_Some in Hu.
      destruct Hu as [(<- & <- & _) | (Ne & Hu)]; [ | eapply Ok, Hu ].
      destruct (Ok t th H) as [(a0 & N0 & Al) _].
      split; [ | apply operation_stores_own ]. simpl.
      eexists. split; [ | apply operation_always_published ].
      apply always_whatever_now in Al. rewrite P in Al.
      eapply returned_null; eassumption.
  - split; [ exact D | ]. intros u thu Hu. eapply Ok, Hu.
Qed.

Lemma sys_reach_ok (y y' : state * list thread) :
  sys_ok RTE_MAX_LCORE y -> sys_reach RTE_MAX_LCORE y y' ->
  sys_ok RTE_MAX_LCORE y'.
Proof.
  intros Ok R. induction R as [ | y y' y'' _ IH St]; [ exact Ok | ].
  eapply sys_step_ok; [ apply IH, Ok | exact St ].
Qed.

Lemma sys_reach_first (y y' y'' : state * list thread) :
  sys_step RTE_MAX_LCORE y y' -> sys_reach RTE_MAX_LCORE y' y'' ->
  sys_reach RTE_MAX_LCORE y y''.
Proof.
  intros St R. induction R as [y' | y' z z' _ IH St'].
  - eapply sys_reach_step; [ apply sys_reach_refl | exact St ].
  - eapply sys_reach_step; [ apply IH, St | exact St' ].
Qed.

(** X1: with one thread per lcore, each calling any operation at any time,
    and the application writing to memory in between.  Whenever the call a
    thread has made last has executed UMONITOR on an address and no UMWAIT
    after it, that call is [rte_power_monitor] with that address as
    [pmc->addr], it has stored to [monitor_addr] of its record before, and
    until it erases it the call has not returned and the address is in its
    record.  Whenever a thread has returned from a call, its record holds
    [NULL].  Whenever its record holds an address, the thread has called
    [rte_power_monitor] with that address, has not returned, and is between
    the store of the address and the erase. *)
Theorem monitor_addr_among_threads (y0 y : state * list thread) (t : nat)
    (th : thread) :
  one_thread_per_lcore RTE_MAX_LCORE (snd y0) ->
  sys_idle y0 ->
  sys_reach RTE_MAX_LCORE y0 y ->
  snd y !! t = Some th ->
  let a := monitor_addr <$> wait_status (fst y) !! N.to_nat (th_lcore th) in
  (forall x, monitor_armed (th_trace th) = Some x ->
     (1 <= count_stores (th_trace th))%nat /\
     (exists c tsc, th_call th = Monitor (Some c) tsc /\ x = addr c) /\
     (count_stores (th_trace th) = 1%nat ->
      returned (th_prog th) = None /\ a = Some x)) /\
  (is_Some (returned (th_prog th)) -> null_or_none a) /\
  (forall x, a = Some x -> x <> 0 ->
     count_stores (th_trace th) = 1%nat /\
     returned (th_prog th) = None /\
     exists c tsc, th_call th = Monitor (Some c) tsc /\ x = addr c).
Proof.
  intros D Idle R H a.
  destruct (sys_reach_ok _ _ (sys_idle_ok _ D Idle) R) as [_ Ok].
  destruct (Ok t th H) as [(a0 & N0 & Al) _].
  apply always_whatever_now in Al. fold a in Al.
  pose proof Al as (U & H0 & H1 & H2 & Ar & Le & Hr).
  assert (Nr : count_stores (th_trace th) = 1%nat ->
               returned (th_prog th) = None).
  { intros C1. destruct (returned (th_prog th)) as [r | ] eqn:Er;
      [ | reflexivity ].
    now destruct (Hr (ex_intro _ r eq_refl)). }
  split; [ | split ].
  - intros x Hx. destruct (Ar x Hx) as (c & tsc & Ec & ->).
    split; [ | split ].
    + eapply U, monitor_armed_umonitor, Hx.
    + eauto.
    + intros C1. split; [ exact (Nr C1) | ].
      destruct (H1 C1) as (c' & tsc' & Ec' & ->). congruence.
  - intros [r Hr']. rewrite Hr' in Al. eapply returned_null; eassumption.
  - intros x Hx Nx.
    destruct (count_stores (th_trace th)) as [ | [ | [ | n]]] eqn:E; try lia.
    + rewrite (H0 eq_refl) in Hx. destruct N0; congruence.
    + split; [ reflexivity | ]. split; [ exact (Nr eq_refl) | ].
      destruct (H1 eq_refl) as (c & tsc & Ec & Ea).
      exists c, tsc. split; [ exact Ec | congruence ].
    + rewrite (H2 eq_refl) in Hx. congruence.
Qed.

(** ** The deadline *)

Lemma events_log {A : Type} (ev : event) (r : result A) :
  events (log ev r) = ev :: events r.
Proof. now destruct r. Qed.

(** The events of a run are actions of the program. *)
Lemma run_events (self : N) (Q : forall X, action X -> bool) {A : Type}
    (p : prog A) :
  all_actions Q p ->
  forall s, Forall (fun ev => ev_test Q ev = true) (events (run self p s)).
Proof.
  induction p as [a | X e k IH]; intros H s; simpl.
  - constructor.
  - destruct H as [Qe Hk].
    destruct (exec self e s) as [x s' | | ]; try constructor.
    rewrite events_log. constructor; [ exact Qe | apply IH, Hk ].
Qed.

Lemma to_uint32_range (z : Z) : 0 <= to_uint32 z < 2 ^ 32.
Proof. unfold to_uint32. apply Z.mod_pos_bound. lia. Qed.

Lemma to_uint32_halves (tsc : Z) :
  to_uint32 tsc + 2 ^ 32 * to_uint32 (Z.shiftr tsc 32) = tsc mod 2 ^ 64.
Proof.
  unfold to_uint32. rewrite Z.shiftr_div_pow2 by lia.
  change (2 ^ 64) with (2 ^ 32 * 2 ^ 32).
  rewrite Z.rem_mul_r by lia. reflexivity.
Qed.

Lemma deadline_split (tsc : Z) :
  let l := to_uint32 tsc in
  let h := to_uint32 (Z.shiftr tsc 32) in
  (0 =? 0) && (0 <=? l) && (l <? 2 ^ 32) && (0 <=? h) && (h <? 2 ^ 32)
  && (l + 2 ^ 32 * h =? tsc mod 2 ^ 64) = true.
Proof.
  intros l h.
  pose proof (to_uint32_range tsc).
  pose proof (to_uint32_range (Z.shiftr tsc 32)).
  pose proof (to_uint32_halves tsc).
  repeat (apply andb_true_iff; split);
    first [ reflexivity | apply Z.leb_le; lia | apply Z.ltb_lt; lia
          | apply Z.eqb_eq; assumption ].
Qed.

Lemma monitor_deadline (pmc : option rte_power_monitor_cond) (tsc : Z) :
  all_actions (deadline_of tsc) (monitor pmc tsc).
Proof.
  pose proof (deadline_split tsc) as D. cbv zeta in D.
  unfold rte_power_monitor, rte_power_monitor_end, __get_umwait_val.
  repeat first
    [ progress cbn [all_actions bind call negb deadline_of]
    | split; [ first [ reflexivity | exact D ] | ]
    | exact Logic.I
    | intro
    | match goal with
      | |- context [if ?b then _ else _] => destruct b
      | |- context [match ?o with Some _ => _ | None => _ end] => destruct o
      end ].
Qed.

Lemma pause_deadline (tsc : Z) :
  all_actions (deadline_of tsc) (rte_power_pause tsc).
Proof.
  pose proof (deadline_split tsc) as D. cbv zeta in D.
  unfold rte_power_pause.
  repeat first
    [ progress cbn [all_actions bind call negb deadline_of]
    | split; [ first [ reflexivity | exact D ] | ]
    | exact Logic.I
    | intro
    | match goal with
      | |- context [if ?b then _ else _] => destruct b
      end ].
Qed.

Lemma deadline_of_true (tsc ctl l h : Z) :
  (ctl =? 0) && (0 <=? l) && (l <? 2 ^ 32) && (0 <=? h) && (h <? 2 ^ 32)
  && (l + 2 ^ 32 * h =? tsc mod 2 ^ 64) = true ->
  ctl = 0 /\ 0 <= l < 2 ^ 32 /\ 0 <= h < 2 ^ 32 /\
  l + 2 ^ 32 * h = tsc mod 2 ^ 64.
Proof.
  intros H. repeat (apply andb_true_iff in H as [H ?]).
  apply Z.eqb_eq in H.
  repeat match goal with
         | K : (_ <=? _) = true |- _ => apply Z.leb_le in K
         | K : (_ <? _) = true |- _ => apply Z.ltb_lt in K
         | K : (_ =? _) = true |- _ => apply Z.eqb_eq in K
         end.
  lia.
Qed.

(** X2: whatever the state, every UMWAIT of [rte_power_monitor] and every
    TPAUSE of [rte_power_pause] is executed with control 0 and with two
    halves of the deadline that are below 2^32 and make up the deadline as a
    64-bit value: low + 2^32 * high = tsc mod 2^64, which is tsc for a tsc
    of 64 bits. *)
Theorem deadline_halves_recombine (self : N)
    (pmc : option rte_power_monitor_cond) (tsc : Z) (s : state) :
  (forall ctl l h,
     In (Ev (umwait ctl l h) tt) (events (run self (monitor pmc tsc) s)) ->
     ctl = 0 /\ 0 <= l < 2 ^ 32 /\ 0 <= h < 2 ^ 32 /\
     l + 2 ^ 32 * h = tsc mod 2 ^ 64) /\
  (forall ctl l h,
     In (Ev (tpause ctl l h) tt) (events (run self (rte_power_pause tsc) s)) ->
     ctl = 0 /\ 0 <= l < 2 ^ 32 /\ 0 <= h < 2 ^ 32 /\
     l + 2 ^ 32 * h = tsc mod 2 ^ 64) /\
  (0 <= tsc < 2 ^ 64 -> tsc mod 2 ^ 64 = tsc).
Proof.
  split; [ | split ].
  - intros ctl l h H. apply deadline_of_true.
    pose proof (run_events self _ _ (monitor_deadline pmc tsc) s) as F.
    rewrite Forall_forall in F. apply list_elem_of_In in H.
    apply (F _ H).
  - intros ctl l h H. apply deadline_of_true.
    pose proof (run_events self _ _ (pause_deadline tsc) s) as F.
    rewrite Forall_forall in F. apply list_elem_of_In in H.
    apply (F _ H).
  - intros H. now apply Z.mod_small.
Qed.

(** ** Conditions that cannot be matching *)

Lemma load_range (m : mem) (p : Z) (n : nat) :
  0 <= load m p n < 2 ^ (8 * Z.of_nat n).
Proof.
  unfold load.
  pose proof (le_combine_bound (load_bytes m p n)) as B.
  rewrite load_bytes_length in B. exact B.
Qed.

Lemma land_range (cur mask k : Z) :
  0 <= k -> 0 <= cur < 2 ^ k -> 0 <= Z.land cur mask < 2 ^ k.
Proof.
  intros K H.
  assert (E : Z.land cur mask = Z.land cur mask mod 2 ^ k).
  { rewrite <- (Z.mod_small cur (2 ^ k)) at 1 by exact H.
    rewrite <- !Z.land_ones by exact K.
    rewrite <- !Z.land_assoc. f_equal. apply Z.land_comm. }
  rewrite E. apply Z.mod_pos_bound. lia.
Qed.

Lemma land_under_mask (cur mask v : Z) :
  Z.land cur mask = v -> Z.land v mask = v.
Proof. intros <-. now rewrite <- Z.land_assoc, Z.land_diag. Qed.

(** The run of a call that passes the checks and whose masked comparison
    fails. *)
Lemma run_monitor_waits (self : N) (c : rte_power_monitor_cond) (tsc : Z)
    (s : state) :
  wait_supported s = true ->
  (self < RTE_MAX_LCORE)%N ->
  __check_val_size (data_sz c) = 0 ->
  lock_free (N.to_nat self) s ->
  Z.land (load (memory s) (addr c) (Z.to_nat (data_sz c))) (mask c) <> val c ->
  exists s' tr,
    run self (monitor (Some c) tsc) s = Done 0 s' tr /\
    List.filter is_umwait tr =
      [Ev (umwait 0 (to_uint32 tsc) (to_uint32 (Z.shiftr tsc 32))) tt].
Proof.
  intros G R V F Ne.
  destruct (lock_free_record _ _ F) as (w & H & L).
  rewrite (run_monitor self c tsc s w G R V H L).
  eexists _, _. split; [ reflexivity | ].
  unfold monitor_wait_events.
  apply Z.eqb_neq in Ne. rewrite Ne.
  destruct (mask c =? 0); reflexivity.
Qed.

(** X3: a call of [rte_power_monitor] that passes the checks, with an
    expected value that has a bit set which the mask clears, executes
    UMWAIT whatever the memory holds: the masked value cannot be the
    expected one. *)
Theorem monitor_waits_if_value_outside_mask (self : N)
    (c : rte_power_monitor_cond) (tsc : Z) (s : state) :
  wait_supported s = true ->
  (self < RTE_MAX_LCORE)%N ->
  __check_val_size (data_sz c) = 0 ->
  lock_free (N.to_nat self) s ->
  Z.land (val c) (mask c) <> val c ->
  exists s' tr,
    run self (monitor (Some c) tsc) s = Done 0 s' tr /\
    List.filter is_umwait tr =
      [Ev (umwait 0 (to_uint32 tsc) (to_uint32 (Z.shiftr tsc 32))) tt].
Proof.
  intros G R V F Ne. apply run_monitor_waits; try assumption.
  intros E. apply Ne. eapply land_under_mask, E.
Qed.

(** X4: the value [__get_umwait_val] reads at a valid width fits that
    width, and so does the masked value: a call of [rte_power_monitor] that
    passes the checks with an expected value that does not fit [data_sz]
    bytes executes UMWAIT whatever the memory holds. *)
Theorem monitor_waits_if_value_wider_than_read (self : N)
    (c : rte_power_monitor_cond) (tsc : Z) (s : state) :
  wait_supported s = true ->
  (self < RTE_MAX_LCORE)%N ->
  __check_val_size (data_sz c) = 0 ->
  lock_free (N.to_nat self) s ->
  ~ (0 <= val c < 2 ^ (8 * data_sz c)) ->
  (forall s0,
     run self (__get_umwait_val (addr c) (data_sz c)) s0 =
     Done (load (memory s0) (addr c) (Z.to_nat (data_sz c))) s0
       [Ev (volatile_load (addr c) (Z.to_nat (data_sz c)))
          (load (memory s0) (addr c) (Z.to_nat (data_sz c)))] /\
     0 <= load (memory s0) (addr c) (Z.to_nat (data_sz c))
       < 2 ^ (8 * data_sz c)) /\
  exists s' tr,
    run self (monitor (Some c) tsc) s = Done 0 s' tr /\
    List.filter is_umwait tr =
      [Ev (umwait 0 (to_uint32 tsc) (to_uint32 (Z.shiftr tsc 32))) tt].
Proof.
  intros G R V F Ne.
  assert (W : Z.of_nat (Z.to_nat (data_sz c)) = data_sz c).
  { apply check_val_size_0 in V. lia. }
  assert (B : forall m, 0 <= load m (addr c) (Z.to_nat (data_sz c))
                        < 2 ^ (8 * data_sz c)).
  { intros m. pose proof (load_range m (addr c) (Z.to_nat (data_sz c))) as B.
    rewrite W in B. exact B. }
  split.
  - intros s0. split; [ | apply B ].
    rewrite (get_umwait_val_checked _ _ V). reflexivity.
  - apply run_monitor_waits; try assumption.
    intros E. apply Ne. rewrite <- E. apply land_range; [ | apply B ].
    apply check_val_size_0 in V. lia.
Qed.

(** ** One call after the other *)

(** X5: after a call of [rte_power_monitor] that has passed the checks and
    returned, a call of [rte_power_monitor_wakeup] for that lcore, from any
    thread, finds [NULL] in the record: it returns 0, touches no address and
    leaves the state as it is. *)
Theorem wakeup_after_monitor_touches_nothing (self other : N)
    (c : rte_power_monitor_cond) (tsc : Z) (s : state) :
  wait_supported s = true ->
  (self < RTE_MAX_LCORE)%N ->
  __check_val_size (data_sz c) = 0 ->
  lock_free (N.to_nat self) s ->
  exists s' tr,
    run self (monitor (Some c) tsc) s = Done 0 s' tr /\
    run other (wakeup self) s' =
    Done 0 s'
      [Ev load_wait_supported true;
       Ev (rte_spinlock_lock (N.to_nat self)) tt;
       Ev (load_monitor_addr (N.to_nat self)) 0;
       Ev (rte_spinlock_unlock (N.to_nat self)) tt].
Proof.
  intros G R V F.
  destruct (lock_free_record _ _ F) as (w & H & L).
  rewrite (run_monitor self c tsc s w G R V H L).
  eexists _, _. split; [ reflexivity | ].
  apply (run_wakeup_idle other self _
           {| lock := false; monitor_addr := 0 |});
    [ exact G | exact R | eapply put_record_lookup, H
    | reflexivity | reflexivity ].
Qed.

Lemma view_of_app (tr : list event) (ev : event) :
  view_of (tr ++ [ev]) = view_after (view_of tr) ev.
Proof. unfold view_of. now rewrite fold_left_app. Qed.

Lemma lookup_put_record_lock (i j : nat) (w w0 : power_wait_status)
    (s : state) :
  wait_status s !! j = Some w0 ->
  lock <$> wait_status (put_record j w s) !! i =
  if (j =? i)%nat then Some (lock w)
  else lock <$> wait_status s !! i.
Proof.
  intros H. destruct (Nat.eqb_spec j i) as [-> | Hne].
  - now rewrite (put_record_lookup _ _ _ _ H).
  - now rewrite put_record_lookup_ne.
Qed.

Lemma exec_lock_after (self : N) (i : nat) {X : Type} (e : action X)
    (s s' : state) (x : X) :
  exec self e s = Ok x s' ->
  lock <$> wait_status s' !! i =
  lock_after i e (lock <$> wait_status s !! i).
Proof.
  destruct e; simpl; unfold with_record; intros E;
    repeat match type of E with
      | context [match ?t with _ => _ end] => destruct t eqn:?
      end;
    try discriminate; injection E as <- <-; try reflexivity;
    erewrite lookup_put_record_lock by eassumption; simpl;
    destruct (Nat.eqb_spec i0 i) as [-> | Hne]; try reflexivity;
    match goal with H : _ !! _ = Some _ |- _ => now rewrite H end.
Qed.

(** A lock that is taken was free. *)
Lemma exec_lock_was_free (self : N) (i : nat) (s s' : state) (x : unit) :
  exec self (rte_spinlock_lock i) s = Ok x s' ->
  lock <$> wait_status s !! i = Some false.
Proof.
  simpl. unfold with_record.
  destruct (wait_status s !! i) as [w | ]; [ | discriminate ].
  simpl. now destruct (lock w).
Qed.

Lemma exec_load_monitor_addr (self : N) (i : nat) (s s' : state) (x : Z) :
  exec self (load_monitor_addr i) s = Ok x s' ->
  monitor_addr <$> wait_status s !! i = Some x.
Proof.
  simpl. unfold with_record.
  destruct (wait_status s !! i) as [w | ]; [ | discriminate ].
  intros E. now injection E as <- _.
Qed.

Lemma step_inv (self : N) {A : Type} (p : prog A) (s : state)
    (tr : list event) (c' : config A) :
  step self (Cfg p s tr) = Some c' ->
  exists X (e : action X) (k : X -> prog A) (x : X),
    p = Vis e k /\ exec self e s = Ok x (cfg_state c') /\
    cfg_prog c' = k x /\ cfg_trace c' = tr ++ [Ev e x].
Proof.
  unfold step. simpl. destruct p as [a | X e k]; [ discriminate | ].
  destruct (exec self e s) as [x s1 | | ] eqn:E; try discriminate.
  intros St. injection St as <-. now exists X, e, k, x.
Qed.

(** An allowed action of a thread: what it holds and has seen afterwards is
    in the state afterwards. *)
Lemma exec_allowed_own (self : N) {X : Type} (e : action X) (s s' : state)
    (x : X) (v : view) :
  exec self e s = Ok x s' ->
  allowed v X e = true ->
  (forall i, held v = Some i -> lock <$> wait_status s !! i = Some true) ->
  (forall i a, held v = Some i -> seen v = Some a ->
               monitor_addr <$> wait_status s !! i = Some a) ->
  (forall i, held (view_after v (Ev e x)) = Some i ->
             lock <$> wait_status s' !! i = Some true) /\
  (forall i a, held (view_after v (Ev e x)) = Some i ->
               seen (view_after v (Ev e x)) = Some a ->
               monitor_addr <$> wait_status s' !! i = Some a).
Proof.
  intros E Al Hl Hs.
  pose proof (fun i => exec_lock_after self i e s s' x E) as L.
  pose proof (fun i => exec_addr_after self i e s s' x E) as M.
  destruct v as [h sn]. unfold allowed, holds, holds_none, knows in Al.
  split; intros j; [ | intros b ]; rewrite ?L, ?M;
    destruct e; cbn [view_after lock_after addr_after held seen] in *;
    intros; simplify_eq; rewrite ?Nat.eqb_refl; eauto;
    try discriminate.
  - apply Nat.eqb_eq in Al. subst j. eapply exec_load_monitor_addr, E.
  - apply Nat.eqb_eq in Al. subst j. now rewrite Nat.eqb_refl.
Qed.

(** An allowed action of a thread, seen from another thread: its lock stays
    taken, the acting thread does not come to hold it, and what it has seen
    in its record stays there. *)
Lemma exec_allowed_other (self : N) {X : Type} (e : action X)
    (s s' : state) (x : X) (v w : view) :
  exec self e s = Ok x s' ->
  allowed v X e = true ->
  (forall i, held w = Some i -> lock <$> wait_status s !! i = Some true) ->
  (forall i a, held w = Some i -> seen w = Some a ->
               monitor_addr <$> wait_status s !! i = Some a) ->
  (forall i, held v = Some i -> held w <> Some i) ->
  (forall i, held w = Some i ->
             lock <$> wait_status s' !! i = Some true /\
             held (view_after v (Ev e x)) <> Some i) /\
  (forall i a, held w = Some i -> seen w = Some a ->
               monitor_addr <$> wait_status s' !! i = Some a).
Proof.
  intros E Al Hl Hs Ex.
  pose proof (fun i => exec_lock_after self i e s s' x E) as L.
  pose proof (fun i => exec_addr_after self i e s s' x E) as M.
  destruct v as [h sn]. unfold allowed, holds, holds_none, knows in Al.
  assert (Hh : forall i, h = Some i -> held w <> Some i) by exact Ex.
  split; [ intros j Hj; split | intros j b Hj Hb ]; rewrite ?L, ?M;
    destruct e; cbn [view_after lock_after addr_after held seen] in *;
    eauto; try discriminate;
    try (intros ->; eapply Hh; eauto; fail).
  - destruct (i =? j)%nat; eauto.
  - destruct (Nat.eqb_spec i j) as [-> | Ne]; [ exfalso | eauto ].
    destruct h as [h | ]; [ | discriminate ].
    apply Nat.eqb_eq in Al. subst h. eapply Hh; eauto.
  - intros Eq. injection Eq as ->.
    specialize (Hl j Hj).
    rewrite (exec_lock_was_free _ _ _ _ _ E) in Hl. discriminate.
  - destruct (Nat.eqb_spec i j) as [-> | Ne]; [ exfalso | eauto ].
    destruct h as [h | ]; [ | discriminate ].
    apply Nat.eqb_eq in Al. subst h. eapply Hh; eauto.
Qed.



(** Going through a program tree with the locks in view. *)
Ltac walk_locks :=
  repeat first
    [ progress cbn [disciplined all_actions_of bind call negb view_after
                    allowed holds holds_none knows held seen andb]
    | rewrite Nat.eqb_refl
    | rewrite Z.eqb_refl
    | split; [ first [ reflexivity | assumption ] | ]
    | reflexivity
    | exact Logic.I
    | intros ? _
    | match goal with
      | |- context [if ?b then _ else _] => destruct b eqn:?
      | |- context [match ?o with Some _ => _ | None => _ end] => destruct o
      end ].

Lemma operation_disciplined (self : N) (o : operation) :
  disciplined self (operation_prog RTE_MAX_LCORE o) (View None None).
Proof.
  destruct o as [pmc tsc | tsc | lcore_id]; cbn [operation_prog].
  - unfold rte_power_monitor, rte_power_monitor_end, __get_umwait_val.
    walk_locks.
  - unfold rte_power_pause. walk_locks.
  - unfold rte_power_monitor_wakeup, __umwait_wakeup. walk_locks.
Qed.

Lemma sys_idle_locks (y : state * list thread) :
  sys_idle y -> locks_ok y.
Proof.
  intros [_ Ht]. rewrite Forall_forall in Ht.
  assert (V : forall t th, snd y !! t = Some th ->
                           view_of (th_trace th) = View None None /\
                           exists r, th_prog th = Ret r).
  { intros t th H. destruct (Ht th) as [[r Hr] ->].
    - apply list_elem_of_lookup. eauto.
    - split; [ reflexivity | ].
      destruct (th_prog th) as [r' | ]; [ eauto | discriminate ]. }
  repeat split.
  - intros t th H. destruct (V t th H) as (-> & r & ->). reflexivity.
  - intros t th i H. destruct (V t th H) as (-> & _). discriminate.
  - intros t u th1 th2 i H. destruct (V t th1 H) as (-> & _). discriminate.
  - intros t th i a H. destruct (V t th H) as (-> & _). discriminate.
Qed.

Lemma sys_step_locks (y y' : state * list thread) :
  locks_ok y -> sys_step RTE_MAX_LCORE y y' -> locks_ok y'.
Proof.
  intros (Di & Tk & Ex & Sn) St.
  destruct St as [s ths t th c' H St | s ths t th r o H P | s ths m];
    unfold locks_ok; cbn [fst snd] in *.
  - destruct (step_inv _ _ _ _ _ St) as (X & e & k & x & P & E & -> & ->).
    pose proof (Di t th H) as D. rewrite P in D. destruct D as [Al D].
    destruct (exec_allowed_own _ _ _ _ _ _ E Al
                (fun i => Tk t th i H) (fun i a => Sn t th i a H))
      as [Tk' Sn'].
    assert (Ot : forall u thu, t <> u -> ths !! u = Some thu ->
              (forall i, held (view_of (th_trace thu)) = Some i ->
                 lock <$> wait_status (cfg_state c') !! i = Some true /\
                 held (view_after (view_of (th_trace th)) (Ev e x))
                   <> Some i) /\
              (forall i a, held (view_of (th_trace thu)) = Some i ->
                 seen (view_of (th_trace thu)) = Some a ->
                 monitor_addr <$> wait_status (cfg_state c') !! i = Some a)).
    { intros u thu Ne Hu.
      apply (exec_allowed_other _ _ _ _ _ _ _ E Al
               (fun i => Tk u thu i Hu) (fun i a => Sn u thu i a Hu)).
      intros i. apply (Ex t u th thu i H Hu Ne). }
    repeat split.
    + intros u thu Hu. apply list_lookup_insert_Some in Hu.
      destruct Hu as [(<- & <- & _) | (Ne & Hu)]; [ | eapply Di, Hu ].
      simpl. rewrite view_of_app. apply D. eapply exec_gives, E.
    + intros u thu i Hu. apply list_lookup_insert_Some in Hu.
      destruct Hu as [(<- & <- & _) | (Ne & Hu)].
      * simpl. rewrite view_of_app. apply Tk'.
      * intros Hi. now apply (proj1 (Ot u thu Ne Hu) i).
    + intros u1 u2 th1 th2 i H1 H2 Ne.
      apply list_lookup_insert_Some in H1, H2.
      destruct H1 as [(<- & <- & _) | (N1 & H1)],
               H2 as [(<- & <- & _) | (N2 & H2)]; simpl;
        rewrite ?view_of_app.
      * congruence.
      * intros Hi Hj. now apply (proj1 (Ot u2 th2 N2 H2) i).
      * intros Hi. now apply (proj1 (Ot u1 th1 N1 H1) i).
      * eapply Ex; eassumption.
    + intros u thu i a Hu. apply list_lookup_insert_Some in Hu.
      destruct Hu as [(<- & <- & _) | (Ne & Hu)].
      * simpl. rewrite view_of_app. apply Sn'.
      * apply (proj2 (Ot u thu Ne Hu)).
  - repeat split.
    + intros u thu Hu. apply list_lookup_insert_Some in Hu.
      destruct Hu as [(<- & <- & _) | (Ne & Hu)]; [ | eapply Di, Hu ].
      apply operation_disciplined.
    + intros u thu i Hu. apply list_lookup_insert_Some in Hu.
      destruct Hu as [(<- & <- & _) | (Ne & Hu)];
        [ discriminate | eapply Tk, Hu ].
    + intros u1 u2 th1 th2 i H1 H2 Ne.
      apply list_lookup_insert_Some in H1, H2.
      destruct H1 as [(<- & <- & _) | (N1 & H1)],
               H2 as [(<- & <- & _) | (N2 & H2)]; simpl;
        try discriminate; try congruence.
      eapply Ex; eassumption.
    + intros u thu i a Hu. apply list_lookup_insert_Some in Hu.
      destruct Hu as [(<- & <- & _) | (Ne & Hu)];
        [ discriminate | eapply Sn, Hu ].
  - repeat split; eauto.
Qed.

Lemma sys_reach_locks (y y' : state * list thread) :
  locks_ok y -> sys_reach RTE_MAX_LCORE y y' -> locks_ok y'.
Proof.
  intros Ok R. induction R as [ | y y' y'' _ IH St]; [ exact Ok | ].
  eapply sys_step_locks; [ apply IH, Ok | exact St ].
Qed.

Lemma insert_thread_lcore (ths : list thread) (t u : nat) (th thu : thread)
    (o : operation) (p : prog Z) (tr : list event) :
  ths !! t = Some th -> ths !! u = Some thu ->
  exists thu',
    <[t := Thread (th_lcore th) o p tr]> ths !! u = Some thu' /\
    th_lcore thu' = th_lcore thu.
Proof.
  intros H Hu. destruct (Nat.eq_dec t u) as [-> | Ne].
  - eexists. split.
    + apply list_lookup_insert_eq. eapply lookup_lt_Some, H.
    + simpl. congruence.
  - exists thu. split; [ | reflexivity ].
    now rewrite list_lookup_insert_ne.
Qed.

Lemma sys_step_owned (y y' : state * list thread) :
  sys_ok RTE_MAX_LCORE y -> owned y -> sys_step RTE_MAX_LCORE y y' ->
  owned y'.
Proof.
  intros [_ Ok] Ow St.
  destruct St as [s ths t th c' H St | s ths t th r o H P | s ths m];
    unfold owned; cbn [fst snd] in *.
  - destruct (step_inv _ _ _ _ _ St) as (X & e & k & x & P & E & Ek & Et).
    destruct (Ok t th H) as [_ Own]. rewrite P in Own.
    destruct Own as [Q _].
    intros i a Hi Na. rewrite (exec_addr_after _ i _ _ _ _ E) in Hi.
    assert (Old : monitor_addr <$> wait_status s !! i = Some a ->
                  exists u thu,
                    <[t := Thread (th_lcore th) (th_call th) (cfg_prog c')
                            (cfg_trace c')]> ths !! u = Some thu /\
                    N.to_nat (th_lcore thu) = i).
    { intros Hs. destruct (Ow i a Hs Na) as (u & thu & Hu & <-).
      destruct (insert_thread_lcore ths t u th thu (th_call th)
                  (cfg_prog c') (cfg_trace c') H Hu) as (thu' & Hu' & El).
      exists u, thu'. split; [ exact Hu' | now rewrite El ]. }
    destruct e; cbn [addr_after] in Hi; try (apply Old, Hi).
    destruct (Nat.eqb_spec i0 i) as [-> | Ne]; [ | apply Old, Hi ].
    simpl in Q. apply andb_true_iff in Q as [Q _]. apply Nat.eqb_eq in Q.
    eexists t, _. split.
    + apply list_lookup_insert_eq. eapply lookup_lt_Some, H.
    + simpl. now rewrite Q.
  - intros i a Hi Na. destruct (Ow i a Hi Na) as (u & thu & Hu & <-).
    destruct (insert_thread_lcore ths t u th thu o
                (operation_prog RTE_MAX_LCORE o) [] H Hu)
      as (thu' & Hu' & El).
    exists u, thu'. split; [ exact Hu' | now rewrite El ].
  - exact Ow.
Qed.

Lemma sys_idle_owned (y : state * list thread) : sys_idle y -> owned y.
Proof.
  intros [Hs _] i a Hi Na. exfalso. apply Na.
  destruct (wait_status (fst y) !! i) as [w | ] eqn:L; [ | discriminate ].
  injection Hi as <-. rewrite Forall_forall in Hs. apply Hs.
  apply list_elem_of_lookup. eauto.
Qed.

Lemma sys_reach_ok_owned (y y' : state * list thread) :
  sys_ok RTE_MAX_LCORE y -> owned y -> sys_reach RTE_MAX_LCORE y y' ->
  sys_ok RTE_MAX_LCORE y' /\ owned y'.
Proof.
  intros Ok Ow R. induction R as [ | y y' y'' _ IH St]; [ now split | ].
  destruct (IH Ok Ow) as [Ok' Ow']. split.
  - eapply sys_step_ok; eassumption.
  - eapply sys_step_owned; eassumption.
Qed.

Lemma operation_gentle (self : N) (o : operation) :
  all_actions_of self value_kept (operation_prog RTE_MAX_LCORE o) /\
  ((exists l, o = Wakeup l) \/
   all_actions_of self no_touch (operation_prog RTE_MAX_LCORE o)).
Proof.
  destruct o as [pmc tsc | tsc | lcore_id]; cbn [operation_prog].
  - split; [ | right ];
      unfold rte_power_monitor, rte_power_monitor_end, __get_umwait_val;
      walk_locks.
  - split; [ | right ]; unfold rte_power_pause; walk_locks.
  - split; [ | left; eauto ].
    unfold rte_power_monitor_wakeup, __umwait_wakeup.
    repeat (walk_locks; cbn [value_kept keeps_memory]).
Qed.

Lemma sys_step_gentle (y y' : state * list thread) :
  sys_gentle y -> sys_step RTE_MAX_LCORE y y' -> sys_gentle y'.
Proof.
  intros G St.
  destruct St as [s ths t th c' H St | s ths t th r o H P | s ths m];
    unfold sys_gentle; cbn [fst snd] in *.
  - intros u thu Hu. apply list_lookup_insert_Some in Hu.
    destruct Hu as [(<- & <- & _) | (Ne & Hu)]; [ | eapply G, Hu ].
    destruct (G t th H) as [K T]. split; simpl.
    + eapply (step_all_actions_of _ _ (Cfg (th_prog th) s (th_trace th)));
        eassumption.
    + destruct T as [T | T]; [ now left | right ].
      eapply (step_all_actions_of _ _ (Cfg (th_prog th) s (th_trace th)));
        eassumption.
  - intros u thu Hu. apply list_lookup_insert_Some in Hu.
    destruct Hu as [(<- & <- & _) | (Ne & Hu)]; [ | eapply G, Hu ].
    apply operation_gentle.
  - exact G.
Qed.

Lemma sys_idle_gentle (y : state * list thread) : sys_idle y -> sys_gentle y.
Proof.
  intros [_ Ht] t th H. rewrite Forall_forall in Ht.
  destruct (Ht th) as [[r Hr] _].
  { apply list_elem_of_lookup. eauto. }
  unfold thread_gentle.
  destruct (th_prog th); [ | discriminate ].
  split; [ exact Logic.I | right; exact Logic.I ].
Qed.

Lemma sys_reach_gentle (y y' : state * list thread) :
  sys_gentle y -> sys_reach RTE_MAX_LCORE y y' -> sys_gentle y'.
Proof.
  intros Ok R. induction R as [ | y y' y'' _ IH St]; [ exact Ok | ].
  eapply sys_step_gentle; [ apply IH, Ok | exact St ].
Qed.

(** ** No thread aborts, and some thread can always go on *)

Lemma operation_safe (o : operation) :
  all_actions (safe_action (N.to_nat RTE_MAX_LCORE))
    (operation_prog RTE_MAX_LCORE o).
Proof.
  destruct o as [pmc tsc | tsc | lcore_id]; cbn [operation_prog].
  - apply monitor_safe.
  - unfold rte_power_pause. walk.
  - unfold rte_power_monitor_wakeup, __umwait_wakeup.
    cbn [bind call all_actions]. split; [ reflexivity | ]. intros b.
    destruct b; cbn [negb all_actions]; [ | exact Logic.I ].
    destruct (RTE_MAX_LCORE <=? lcore_id)%N eqn:R; [ exact Logic.I | ].
    assert (B : (N.to_nat lcore_id <? N.to_nat RTE_MAX_LCORE)%nat = true).
    { apply Nat.ltb_lt. apply N.leb_gt in R. lia. }
    walk.
Qed.

Lemma sys_step_sound (y y' : state * list thread) :
  sys_sound RTE_MAX_LCORE y -> sys_step RTE_MAX_LCORE y y' ->
  sys_sound RTE_MAX_LCORE y'.
Proof.
  intros [Tb Sf] St.
  destruct St as [s ths t th c' H St | s ths t th r o H P | s ths m];
    unfold sys_sound, table_ok in *; cbn [fst snd] in *.
  - destruct (step_inv _ _ _ _ _ St) as (X & e & k & x & P & E & Ek & _).
    split; [ now rewrite (exec_keeps_length _ _ _ _ _ E) | ].
    intros u thu Hu. apply list_lookup_insert_Some in Hu.
    destruct Hu as [(<- & <- & _) | (Ne & Hu)]; [ | eapply Sf, Hu ].
    simpl. rewrite Ek. specialize (Sf t th H). rewrite P in Sf. apply Sf.
  - split; [ exact Tb | ].
    intros u thu Hu. apply list_lookup_insert_Some in Hu.
    destruct Hu as [(<- & <- & _) | (Ne & Hu)]; [ | eapply Sf, Hu ].
    apply operation_safe.
  - split; [ exact Tb | exact Sf ].
Qed.

Lemma sys_idle_sound (y : state * list thread) :
  table_ok RTE_MAX_LCORE (fst y) -> sys_idle y -> sys_sound RTE_MAX_LCORE y.
Proof.
  intros Tb [_ Ht]. split; [ exact Tb | ]. intros t th H.
  rewrite Forall_forall in Ht. destruct (Ht th) as [[r Hr] _].
  { apply list_elem_of_lookup. eauto. }
  destruct (th_prog th); [ exact Logic.I | discriminate ].
Qed.

Lemma sys_reach_sound (y y' : state * list thread) :
  sys_sound RTE_MAX_LCORE y -> sys_reach RTE_MAX_LCORE y y' ->
  sys_sound RTE_MAX_LCORE y'.
Proof.
  intros Ok R. induction R as [ | y y' y'' _ IH St]; [ exact Ok | ].
  eapply sys_step_sound; [ apply IH, Ok | exact St ].
Qed.

Lemma exec_spin (self : N) {X : Type} (e : action X) (s : state) :
  exec self e s = Spin ->
  exists i, locking e = Some i /\
            lock <$> wait_status s !! i = Some true.
Proof.
  destruct e; simpl; unfold with_record; intros E;
    repeat match type of E with
      | context [match ?t with _ => _ end] => destruct t eqn:?
      end;
    try discriminate.
  exists i. split; [ reflexivity | ].
  match goal with H : _ !! _ = Some _ |- _ => rewrite H end.
  simpl. congruence.
Qed.

Lemma locking_allowed (v : view) {X : Type} (e : action X) (i : nat) :
  locking e = Some i -> allowed v X e = true -> held v = None.
Proof.
  destruct e; try discriminate. intros _. unfold allowed, holds_none.
  now destruct (held v).
Qed.

Lemma held_after_other (v : view) {X : Type} (e : action X) (x : X)
    (i : nat) :
  lock_after i e (Some true) = Some true ->
  allowed v X e = true ->
  held v = Some i -> held (view_after v (Ev e x)) = Some i.
Proof.
  destruct v as [h sn]. unfold allowed, holds, holds_none.
  destruct e; cbn [view_after lock_after held]; intros L Al Hh;
    try exact Hh; subst h; try discriminate.
  apply Nat.eqb_eq in Al. subst. rewrite Nat.eqb_refl in L. discriminate.
Qed.

Lemma sys_step_locks_held (y y' : state * list thread) :
  locks_ok y -> locks_held y -> sys_step RTE_MAX_LCORE y y' ->
  locks_held y'.
Proof.
  intros (Di & _ & _ & _) Lh St.
  destruct St as [s ths t th c' H St | s ths t th r o H P | s ths m];
    unfold locks_held in *; cbn [fst snd] in *.
  - destruct (step_inv _ _ _ _ _ St) as (X & e & k & x & P & E & Ek & Et).
    pose proof (Di t th H) as D. rewrite P in D. destruct D as [Al _].
    intros i Hi. rewrite (exec_lock_after _ i _ _ _ _ E) in Hi.
    assert (Here : held (view_after (view_of (th_trace th)) (Ev e x))
                   = Some i ->
                   exists u thu,
                     <[t := Thread (th_lcore th) (th_call th) (cfg_prog c')
                             (cfg_trace c')]> ths !! u = Some thu /\
                     held (view_of (th_trace thu)) = Some i).
    { intros Hv. eexists t, _. split.
      - apply list_lookup_insert_eq. eapply lookup_lt_Some, H.
      - simpl. now rewrite Et, view_of_app. }
    assert (Old : lock <$> wait_status s !! i = Some true ->
                  lock_after i e (Some true) = Some true ->
                  exists u thu,
                    <[t := Thread (th_lcore th) (th_call th) (cfg_prog c')
                            (cfg_trace c')]> ths !! u = Some thu /\
                    held (view_of (th_trace thu)) = Some i).
    { intros Hs La. destruct (Lh i Hs) as (u & thu & Hu & Hh).
      destruct (Nat.eq_dec t u) as [<- | Ne].
      - apply Here. assert (thu = th) by congruence. subst thu.
        now apply held_after_other.
      - exists u, thu. split; [ | exact Hh ].
        now rewrite list_lookup_insert_ne. }
    destruct e; cbn [lock_after] in *; try (now apply Old).
    + destruct (Nat.eqb_spec i0 i) as [-> | Ne].
      * apply Here. reflexivity.
      * apply Old; [ exact Hi | ].
        destruct (Nat.eqb_spec i0 i); congruence.
    + destruct (Nat.eqb_spec i0 i) as [-> | Ne]; [ discriminate | ].
      apply Old; [ exact Hi | ].
      destruct (Nat.eqb_spec i0 i); congruence.
  - intros i Hi. destruct (Lh i Hi) as (u & thu & Hu & Hh).
    destruct (Nat.eq_dec t u) as [<- | Ne].
    + assert (thu = th) by congruence. subst thu.
      pose proof (Di t th H) as D. rewrite P in D. simpl in D. congruence.
    + exists u, thu. split; [ | exact Hh ].
      now rewrite list_lookup_insert_ne.
  - exact Lh.
Qed.

Lemma sys_idle_locks_held (y : state * list thread) :
  locks_free (fst y) -> locks_held y.
Proof.
  intros Fr i Hi. exfalso.
  destruct (wait_status (fst y) !! i) as [w | ] eqn:L; [ | discriminate ].
  unfold locks_free in Fr. rewrite Forall_forall in Fr.
  simpl in Hi. rewrite (Fr w) in Hi; [ discriminate | ].
  apply list_elem_of_lookup. eauto.
Qed.

Lemma sys_reach_locks_held (y y' : state * list thread) :
  locks_ok y -> locks_held y -> sys_reach RTE_MAX_LCORE y y' ->
  locks_ok y' /\ locks_held y'.
Proof.
  intros Ok Lh R. induction R as [ | y y' y'' _ IH St]; [ now split | ].
  destruct (IH Ok Lh) as [Ok' Lh']. split.
  - eapply sys_step_locks; eassumption.
  - eapply sys_step_locks_held; eassumption.
Qed.

Lemma thread_ok_sleeping (s : state) (th : thread) (x : Z) :
  thread_ok RTE_MAX_LCORE s th ->
  monitor_addr <$> wait_status s !! N.to_nat (th_lcore th) = Some x ->
  x <> 0 ->
  count_stores (th_trace th) = 1%nat /\
  exists c tsc, th_call th = Monitor (Some c) tsc /\ x = addr c.
Proof.
  intros [(a0 & N0 & Al) _] Hx Nx.
  apply always_whatever_now in Al.
  destruct Al as (_ & H0 & H1 & H2 & _ & Le & _).
  destruct (count_stores (th_trace th)) as [ | [ | [ | n]]] eqn:E; try lia.
  - rewrite (H0 eq_refl) in Hx. destruct N0; congruence.
  - split; [ reflexivity | ]. destruct (H1 eq_refl) as (c & tsc & Ec & Ea).
    exists c, tsc. split; [ exact Ec | congruence ].
  - rewrite (H2 eq_refl) in Hx. congruence.
Qed.

Lemma knows_inv (v : view) (a : Z) :
  knows v a = true -> exists i, held v = Some i /\ seen v = Some a.
Proof.
  unfold knows. destruct (held v) as [i | ]; [ | discriminate ].
  destruct (seen v) as [b | ]; [ | discriminate ].
  intros E. apply Z.eqb_eq in E. subst b. eauto.
Qed.

Lemma touched_allowed (v : view) {X : Type} (e : action X) (a : Z) :
  touched e = Some a -> allowed v X e = true ->
  a <> 0 /\ exists i, held v = Some i /\ seen v = Some a.
Proof.
  destruct e; try discriminate; simpl; intros T Al; injection T as <-;
    apply andb_true_iff in Al as [K Nz];
    (split; [ apply negb_true_iff, Z.eqb_neq in Nz; exact Nz
            | apply knows_inv, K ]).
Qed.

(** ** The threads together: the locks *)

(** X6: with the threads calling any operation at any time, every thread
    follows the lock discipline: its next action is allowed by the locks it
    holds (a lock is taken with none held; a record is unlocked, read and
    written under its lock; UMONITOR is executed under the lock on the
    address just stored; an address is touched for a wake-up under the
    lock, and it is the address read from the record, not [NULL]; UMWAIT,
    TPAUSE and the read of the watched value happen with no lock held), and
    a call returns with no lock held. *)
Theorem threads_follow_lock_discipline (y0 y : state * list thread)
    (t : nat) (th : thread) :
  sys_idle y0 ->
  sys_reach RTE_MAX_LCORE y0 y ->
  snd y !! t = Some th ->
  (forall r, th_prog th = Ret r -> held (view_of (th_trace th)) = None) /\
  (forall X (e : action X) k,
     th_prog th = Vis e k -> allowed (view_of (th_trace th)) X e = true).
Proof.
  intros Idle R H.
  destruct (sys_reach_locks _ _ (sys_idle_locks _ Idle) R) as (Di & _).
  pose proof (Di t th H) as D. split.
  - intros r P. now rewrite P in D.
  - intros X e k P. rewrite P in D. apply D.
Qed.

(** X7: the spinlock of a record excludes: while a thread holds it, the
    [lock] field is set, no other thread holds it, and [monitor_addr] of
    the record is what the thread has read from it or written to it since
    it took the lock. *)
Theorem spinlock_excludes_threads (y0 y : state * list thread) (t : nat)
    (th : thread) (i : nat) :
  sys_idle y0 ->
  sys_reach RTE_MAX_LCORE y0 y ->
  snd y !! t = Some th ->
  held (view_of (th_trace th)) = Some i ->
  lock <$> wait_status (fst y) !! i = Some true /\
  (forall u thu,
     snd y !! u = Some thu -> u <> t ->
     held (view_of (th_trace thu)) <> Some i) /\
  (forall a,
     seen (view_of (th_trace th)) = Some a ->
     monitor_addr <$> wait_status (fst y) !! i = Some a).
Proof.
  intros Idle R H Hi.
  destruct (sys_reach_locks _ _ (sys_idle_locks _ Idle) R)
    as (_ & Tk & Ex & Sn).
  split; [ | split ].
  - eapply Tk; eassumption.
  - intros u thu Hu Ne. eapply (Ex t u); eauto.
  - intros a Ha. eapply Sn; eassumption.
Qed.

(** X8: [rte_power_monitor_wakeup] touches an address only while a thread
    sleeps on it: when the next action of a thread is the atomic load or
    the compare-and-swap on [a], the thread is in
    [rte_power_monitor_wakeup] and holds the lock of a record that holds
    [a], and another thread, the one of that lcore, is in
    [rte_power_monitor] on [a], between the store of [a] and the erase. *)
Theorem wakeup_touches_monitored_address (y0 y : state * list thread)
    (t : nat) (th : thread) (X : Type) (e : action X) (k : X -> prog Z)
    (a : Z) :
  one_thread_per_lcore RTE_MAX_LCORE (snd y0) ->
  sys_idle y0 ->
  sys_reach RTE_MAX_LCORE y0 y ->
  snd y !! t = Some th ->
  th_prog th = Vis e k ->
  touched e = Some a ->
  a <> 0 /\
  (exists l, th_call th = Wakeup l) /\
  exists i u thu c tsc,
    held (view_of (th_trace th)) = Some i /\
    monitor_addr <$> wait_status (fst y) !! i = Some a /\
    u <> t /\ snd y !! u = Some thu /\ N.to_nat (th_lcore thu) = i /\
    th_call thu = Monitor (Some c) tsc /\ addr c = a /\
    count_stores (th_trace thu) = 1%nat.
Proof.
  intros D Idle R H P T.
  destruct (sys_reach_locks _ _ (sys_idle_locks _ Idle) R)
    as (Di & _ & _ & Sn).
  destruct (sys_reach_ok_owned _ _ (sys_idle_ok _ D Idle)
              (sys_idle_owned _ Idle) R) as [[_ Ok] Ow].
  pose proof (sys_reach_gentle _ _ (sys_idle_gentle _ Idle) R t th H)
    as [_ G].
  pose proof (Di t th H) as Dt. rewrite P in Dt. destruct Dt as [Al _].
  destruct (touched_allowed _ _ _ T Al) as (Nz & i & Hi & Hs).
  assert (W : exists l, th_call th = Wakeup l).
  { destruct G as [G | G]; [ exact G | ].
    rewrite P in G. destruct G as [G _]. unfold no_touch in G.
    rewrite T in G. discriminate. }
  split; [ exact Nz | ]. split; [ exact W | ].
  pose proof (Sn t th i a H Hi Hs) as Ha.
  destruct (Ow i a Ha Nz) as (u & thu & Hu & El).
  rewrite <- El in Ha.
  destruct (thread_ok_sleeping _ _ _ (Ok u thu Hu) Ha Nz)
    as (C1 & c & tsc & Ec & Ea).
  assert (Ne : u <> t).
  { intros ->. destruct W as [l W]. congruence. }
  exists i, u, thu, c, tsc. rewrite El in Ha. repeat split; auto.
Qed.

(** X9: with the threads calling any operation at any time and the
    application writing to memory in between, no action of a thread changes
    a byte of memory: the compare-and-swap of [__umwait_wakeup] fails, or
    it writes back the value it has just found there. *)
Theorem threads_keep_memory (y0 y : state * list thread) (t : nat)
    (th : thread) (c' : config Z) :
  sys_idle y0 ->
  sys_reach RTE_MAX_LCORE y0 y ->
  snd y !! t = Some th ->
  step (th_lcore th) (Cfg (th_prog th) (fst y) (th_trace th)) = Some c' ->
  same_memory (fst y) (cfg_state c').
Proof.
  intros Idle R H St.
  pose proof (sys_reach_gentle _ _ (sys_idle_gentle _ Idle) R t th H)
    as [K _].
  destruct (step_all_actions_of (th_lcore th) _
              (Cfg (th_prog th) (fst y) (th_trace th)) c' K St)
    as (_ & X & e & x & Qe & E).
  eapply exec_keeps_memory; [ exact Qe | exact E ].
Qed.

(** X10: with one record per lcore in the table, no action of a thread
    aborts, whatever the arguments of the calls: the table is indexed
    within its bounds and the assertion of [__get_umwait_val] is not
    reached. *)
Theorem threads_never_abort (y0 y : state * list thread) (t : nat)
    (th : thread) (X : Type) (e : action X) (k : X -> prog Z) :
  table_ok RTE_MAX_LCORE (fst y0) ->
  sys_idle y0 ->
  sys_reach RTE_MAX_LCORE y0 y ->
  snd y !! t = Some th ->
  th_prog th = Vis e k ->
  table_ok RTE_MAX_LCORE (fst y) /\
  exec (th_lcore th) e (fst y) <> Abort.
Proof.
  intros Tb Idle R H P.
  destruct (sys_reach_sound _ _ (sys_idle_sound _ Tb Idle) R) as [Tb' Sf].
  split; [ exact Tb' | ].
  specialize (Sf t th H). rewrite P in Sf. destruct Sf as [Q _].
  eapply exec_safe; [ exact Q | exact Tb' ].
Qed.

Lemma can_step_unless_locking (s : state) (th : thread) (v : view) :
  length (wait_status s) = N.to_nat RTE_MAX_LCORE ->
  all_actions (safe_action (N.to_nat RTE_MAX_LCORE)) (th_prog th) ->
  disciplined (th_lcore th) (th_prog th) v ->
  can_step s th \/
  held v = None /\
  ((exists r, th_prog th = Ret r) \/
   exists i k, th_prog th = Vis (rte_spinlock_lock i) k /\
               lock <$> wait_status s !! i = Some true).
Proof.
  intros Len Sf D. unfold can_step, step. cbn [cfg_prog cfg_state].
  destruct (th_prog th) as [r | X e k] eqn:P; [ right; eauto | ].
  destruct Sf as [Q _]. destruct D as [Al _].
  destruct (exec (th_lcore th) e s) as [x s1 | | ] eqn:E.
  - left. eauto.
  - right. destruct (exec_spin _ _ _ E) as (i & Lk & Hl).
    split; [ eapply locking_allowed; eassumption | right ].
    destruct e; try discriminate. injection Lk as ->. eauto.
  - now destruct (exec_safe (th_lcore th) _ e s Q Len).
Qed.

(** X11: the threads never all wait for each other.  With one record per
    lcore and every lock free at the start: a thread that has not returned
    from its call can do its next action, or that action is to take a lock
    which another thread holds, and that thread can do its next action. *)
Theorem some_thread_can_step (y0 y : state * list thread) (t : nat)
    (th : thread) :
  table_ok RTE_MAX_LCORE (fst y0) ->
  locks_free (fst y0) ->
  sys_idle y0 ->
  sys_reach RTE_MAX_LCORE y0 y ->
  snd y !! t = Some th ->
  returned (th_prog th) = None ->
  can_step (fst y) th \/
  exists i k u thu,
    th_prog th = Vis (rte_spinlock_lock i) k /\
    u <> t /\ snd y !! u = Some thu /\
    held (view_of (th_trace thu)) = Some i /\
    can_step (fst y) thu.
Proof.
  intros Tb Fr Idle R H Nr.
  destruct (sys_reach_sound _ _ (sys_idle_sound _ Tb Idle) R) as [Tb' Sf].
  destruct (sys_reach_locks_held _ _ (sys_idle_locks _ Idle)
              (sys_idle_locks_held _ Fr) R) as [(Di & _) Lh].
  destruct (can_step_unless_locking (fst y) th _ Tb' (Sf t th H) (Di t th H))
    as [C | (Hn & [(r & P) | (i & k & P & Lk)])].
  - now left.
  - rewrite P in Nr. discriminate.
  - right. destruct (Lh i Lk) as (u & thu & Hu & Hh).
    exists i, k, u, thu. repeat split; auto.
    + intros ->. congruence.
    + destruct (can_step_unless_locking (fst y) thu _ Tb' (Sf u thu Hu)
                  (Di u thu Hu)) as [C | (Hn' & _)];
        [ exact C | congruence ].
Qed.

(** ** Schedules *)

Lemma sys_do_step (y y' : state * list thread) (mv : sys_move) :
  sys_do RTE_MAX_LCORE y mv = Some y' -> sys_step RTE_MAX_LCORE y y'.
Proof.
  destruct y as [s ths]. destruct mv as [t | t o | m]; cbn [sys_do fst snd].
  - destruct (ths !! t) as [th | ] eqn:H; [ | discriminate ].
    destruct (step _ _) as [c' | ] eqn:St; [ | discriminate ].
    intros E. injection E as <-. eapply sys_act; eassumption.
  - destruct (ths !! t) as [th | ] eqn:H; [ | discriminate ].
    destruct (th_prog th) as [r | ] eqn:P; [ | discriminate ].
    intros E. injection E as <-. eapply sys_call; eassumption.
  - intros E. injection E as <-. apply sys_write.
Qed.

Lemma sys_run_reach (l : list sys_move) (y y' : state * list thread) :
  sys_run RTE_MAX_LCORE l y = Some y' -> sys_reach RTE_MAX_LCORE y y'.
Proof.
  revert y. induction l as [ | mv l IH]; intros y; cbn [sys_run].
  - intros E. injection E as <-. apply sys_reach_refl.
  - destruct (sys_do RTE_MAX_LCORE y mv) as [y1 | ] eqn:D; [ | discriminate ].
    intros E. eapply sys_reach_first; [ eapply sys_do_step, D | ].
    apply IH, E.
Qed.

(** Every move the system can make is a move of a schedule. *)
Lemma sys_step_do (y y' : state * list thread) :
  sys_step RTE_MAX_LCORE y y' ->
  exists mv, sys_do RTE_MAX_LCORE y mv = Some y'.
Proof.
  intros St.
  destruct St as [s ths t th c' H St | s ths t th r o H P | s ths m].
  - exists (Do_act t). cbn [sys_do fst snd]. now rewrite H, St.
  - exists (Do_call t o). cbn [sys_do fst snd]. now rewrite H, P.
  - now exists (Do_write m).
Qed.

(** ** Going to sleep *)

Lemma operation_sleeps_armed (self : N) (o : operation) :
  all_actions_after self sleeps_armed (operation_prog RTE_MAX_LCORE o) [].
Proof.
  destruct o as [pmc tsc | tsc | lcore_id]; cbn [operation_prog].
  - unfold rte_power_monitor, rte_power_monitor_end, __get_umwait_val.
    repeat first
      [ progress cbn [all_actions_after bind call negb app]
      | split; [ reflexivity | ]
      | exact Logic.I
      | intros ? _
      | match goal with
        | |- context [if ?b then _ else _] => destruct b
        | |- context [match ?o with Some _ => _ | None => _ end] =>
            destruct o
        end ].
  - unfold rte_power_pause.
    repeat first
      [ progress cbn [all_actions_after bind call negb app]
      | split; [ reflexivity | ] | exact Logic.I | intros ? _
      | match goal with
        | |- context [if ?b then _ else _] => destruct b
        end ].
  - unfold rte_power_monitor_wakeup, __umwait_wakeup.
    repeat first
      [ progress cbn [all_actions_after bind call negb app]
      | split; [ reflexivity | ] | exact Logic.I | intros ? _
      | match goal with
        | |- context [if ?b then _ else _] => destruct b
        end ].
Qed.

Lemma sys_step_sleeps_armed (y y' : state * list thread) :
  sys_sleeps_armed y -> sys_step RTE_MAX_LCORE y y' -> sys_sleeps_armed y'.
Proof.
  intros Sl St.
  destruct St as [s ths t th c' H St | s ths t th r o H P | s ths m];
    unfold sys_sleeps_armed in *; cbn [fst snd] in *.
  - destruct (step_inv _ _ _ _ _ St) as (X & e & k & x & P & E & Ek & Et).
    intros u thu Hu. apply list_lookup_insert_Some in Hu.
    destruct Hu as [(<- & <- & _) | (Ne & Hu)]; [ | eapply Sl, Hu ].
    simpl. rewrite Ek, Et. specialize (Sl t th H). rewrite P in Sl.
    apply Sl. eapply exec_gives, E.
  - intros u thu Hu. apply list_lookup_insert_Some in Hu.
    destruct Hu as [(<- & <- & _) | (Ne & Hu)]; [ | eapply Sl, Hu ].
    apply operation_sleeps_armed.
  - exact Sl.
Qed.

Lemma sys_idle_sleeps_armed (y : state * list thread) :
  sys_idle y -> sys_sleeps_armed y.
Proof.
  intros [_ Ht] t th H. rewrite Forall_forall in Ht.
  destruct (Ht th) as [[r Hr] _].
  { apply list_elem_of_lookup. eauto. }
  destruct (th_prog th); [ exact Logic.I | discriminate ].
Qed.

Lemma sys_reach_sleeps_armed (y y' : state * list thread) :
  sys_sleeps_armed y -> sys_reach RTE_MAX_LCORE y y' -> sys_sleeps_armed y'.
Proof.
  intros Ok R. induction R as [ | y y' y'' _ IH St]; [ exact Ok | ].
  eapply sys_step_sleeps_armed; [ apply IH, Ok | exact St ].
Qed.

(** X12: a thread goes to sleep with its address in its record.  With one
    thread per lcore, each calling any operation at any time: when the next
    action of a thread is UMWAIT, the thread is in [rte_power_monitor], its
    monitor is armed on the address of the condition, and [monitor_addr] of
    its record is that address, so that a call of
    [rte_power_monitor_wakeup] for its lcore finds it. *)
Theorem thread_sleeps_published (y0 y : state * list thread) (t : nat)
    (th : thread) (ctl tsc_l tsc_h : Z) (k : unit -> prog Z) :
  one_thread_per_lcore RTE_MAX_LCORE (snd y0) ->
  sys_idle y0 ->
  sys_reach RTE_MAX_LCORE y0 y ->
  snd y !! t = Some th ->
  th_prog th = Vis (umwait ctl tsc_l tsc_h) k ->
  exists c tsc,
    th_call th = Monitor (Some c) tsc /\
    monitor_armed (th_trace th) = Some (addr c) /\
    monitor_addr <$> wait_status (fst y) !! N.to_nat (th_lcore th)
      = Some (addr c).
Proof.
  intros D Idle R H P.
  destruct (sys_reach_ok _ _ (sys_idle_ok _ D Idle) R) as [_ Ok].
  pose proof (sys_reach_sleeps_armed _ _ (sys_idle_sleeps_armed _ Idle) R
                t th H) as Sl.
  rewrite P in Sl. destruct Sl as [Q _]. simpl in Q.
  apply andb_true_iff in Q as [C1 Ar]. apply Nat.eqb_eq in C1.
  destruct (monitor_armed (th_trace th)) as [x | ] eqn:Ex;
    [ | discriminate ].
  destruct (Ok t th H) as [(a0 & N0 & Al) _].
  apply always_whatever_now in Al.
  destruct Al as (_ & _ & H1 & _ & Ha & _).
  destruct (H1 C1) as (c & tsc & Ec & Ea).
  destruct (Ha x Ex) as (c' & tsc' & Ec' & ->).
  exists c, tsc. repeat split; [ exact Ec | congruence | exact Ea ].
Qed.

End Properties.


(** * The properties at work *)

Lemma monitor_mask_short_circuit_witness :
  wait_supported example_state = true /\
  (3 < 128)%N /\
  __check_val_size (data_sz example_cond) = 0 /\
  lock_free 3 example_state /\
  exists s' tr,
    run 3 (rte_power_monitor 128 (Some example_cond) 1000) example_state =
      Done 0 s' tr /\
    List.filter is_umwait tr = [].
Proof.
  repeat (split; [ reflexivity | ]).
  destruct (monitor_mask_short_circuit 128 3 example_cond 1000 example_state)
    as (s' & tr & E & M & _); try reflexivity.
  exists s', tr. split; [ exact E | ].
  apply M; [ discriminate | reflexivity ].
Defined.

Lemma monitor_erases_sleep_address_witness :
  wait_supported example_state = true /\
  (3 < 128)%N /\
  __check_val_size (data_sz example_cond) = 0 /\
  lock_free 3 example_state /\
  exists s' tr,
    run 3 (rte_power_monitor 128 (Some example_cond) 1000) example_state =
      Done 0 s' tr /\
    wait_status s' !! 3%nat = Some {| lock := false; monitor_addr := 0 |}.
Proof.
  repeat (split; [ reflexivity | ]).
  destruct (monitor_erases_sleep_address 128 3 example_cond 1000
              example_state)
    as ((s' & tr & E & M & _) & _); try reflexivity.
  exists s'. eexists. split; [ exact E | exact M ].
Defined.

(** After five actions of this call UMONITOR has been executed, and the
    record of lcore 3 holds 4096. *)
Lemma monitor_publishes_before_arming_witness :
  wait_supported example_state = true /\
  (3 < 128)%N /\
  __check_val_size (data_sz example_cond) = 0 /\
  lock_free 3 example_state /\
  exists cfg,
    reach 3
      (start (rte_power_monitor 128 (Some example_cond) 1000) example_state)
      cfg /\
    existsb is_umonitor (cfg_trace cfg) = true /\
    count_stores (cfg_trace cfg) = 1%nat /\
    published 3 4096 (cfg_state cfg).
Proof.
  repeat (split; [ reflexivity | ]).
  pose (c0 := start (rte_power_monitor 128 (Some example_cond) 1000)
                example_state).
  pose (cfg := default c0 (steps 3 5 c0)).
  assert (Rc : reach 3 c0 cfg) by (apply (steps_reach 3 5); reflexivity).
  exists cfg. split; [ exact Rc | ].
  destruct (monitor_publishes_before_arming 128 3 example_cond 1000
              example_state)
    as (_ & Inv & _); try reflexivity.
  destruct (Inv cfg Rc) as (_ & K).
  destruct (K eq_refl) as [(C1 & P) | (C2 & _)]; [ | discriminate C2 ].
  split; [ reflexivity | ]. split; [ exact C1 | exact P ].
Defined.

(** C3 as stated does not hold: after nine actions of this call (the value
    at address 4096 matches, so UMWAIT is skipped) UMONITOR has been
    executed on address 4096, no UMWAIT after it, the lock is held and
    [monitor_addr] has been erased: the record holds [NULL], not 4096. *)
Lemma monitor_armed_after_erase :
  exists cfg,
    reach 3
      (start (rte_power_monitor 128 (Some example_cond) 1000) example_state)
      cfg /\
    existsb is_umonitor (cfg_trace cfg) = true /\
    monitor_armed (cfg_trace cfg) = Some (addr example_cond) /\
    wait_status (cfg_state cfg) !! 3%nat =
      Some {| lock := true; monitor_addr := 0 |} /\
    published 3 0 (cfg_state cfg) /\
    ~ published 3 (addr example_cond) (cfg_state cfg).
Proof.
  eexists. split.
  - apply (steps_reach 3 9). reflexivity.
  - repeat split. intros H. discriminate H.
Qed.

Lemma monitor_invalid_argument_witness :
  wait_supported example_state = true /\
  run 3 (rte_power_monitor 128 (Some example_bad_cond) 1000) example_state =
  Done (- EINVAL) example_state
    [Ev rte_lcore_id 3%N; Ev load_wait_supported true].
Proof.
  split; [ reflexivity | ].
  destruct (monitor_invalid_argument 128 3 (Some example_bad_cond) 1000
              example_state)
    as (_ & _ & _ & W); [ reflexivity | ].
  apply W; [ reflexivity | ].
  intros [V | [V | [V | V]]]; discriminate V.
Defined.

Lemma wakeup_returns_witness :
  wait_supported example_sleeping_state = true /\
  exists s',
    run 0 (rte_power_monitor_wakeup 128 3) example_sleeping_state =
      Done 0 s'
        [Ev load_wait_supported true; Ev (rte_spinlock_lock 3) tt;
         Ev (load_monitor_addr 3) 4096;
         Ev (atomic_load_n 4096) 1;
         Ev (atomic_compare_exchange_n 4096 1 1) (true, 1);
         Ev (rte_spinlock_unlock 3) tt] /\
    wait_status s' = wait_status example_sleeping_state.
Proof.
  split; [ reflexivity | ].
  destruct (wakeup_returns 128 0 3 example_sleeping_state) as (_ & W);
    [ reflexivity | ].
  destruct (W eq_refl eq_refl) as (_ & T).
  destruct (T 4096 eq_refl) as (s' & E & _ & K); [ discriminate | ].
  exists s'. split; [ exact E | exact K ].
Defined.

Lemma get_umwait_val_total_witness :
  __check_val_size 4 = 0 /\
  __get_umwait_val 4096 4 = call (volatile_load 4096 4).
Proof.
  split; [ reflexivity | ].
  apply (get_umwait_val_total 128 4096 4). reflexivity.
Defined.

Lemma monitor_waits_if_value_outside_mask_witness :
  wait_supported example_state = true /\
  (3 < 128)%N /\
  __check_val_size (data_sz example_unmasked_cond) = 0 /\
  lock_free 3 example_state /\
  Z.land (val example_unmasked_cond) (mask example_unmasked_cond)
    <> val example_unmasked_cond /\
  exists s' tr,
    run 3 (rte_power_monitor 128 (Some example_unmasked_cond) 1000)
      example_state = Done 0 s' tr /\
    List.filter is_umwait tr = [Ev (umwait 0 1000 0) tt].
Proof.
  repeat (split; [ first [ reflexivity | discriminate ] | ]).
  apply (monitor_waits_if_value_outside_mask 128 3 example_unmasked_cond
           1000 example_state); first [ reflexivity | discriminate ].
Defined.

Lemma monitor_waits_if_value_wider_than_read_witness :
  wait_supported example_state = true /\
  (3 < 128)%N /\
  __check_val_size (data_sz example_wide_cond) = 0 /\
  lock_free 3 example_state /\
  ~ (0 <= val example_wide_cond < 2 ^ (8 * data_sz example_wide_cond)) /\
  exists s' tr,
    run 3 (rte_power_monitor 128 (Some example_wide_cond) 1000)
      example_state = Done 0 s' tr /\
    List.filter is_umwait tr = [Ev (umwait 0 1000 0) tt].
Proof.
  assert (W : ~ (0 <= val example_wide_cond
                 < 2 ^ (8 * data_sz example_wide_cond))).
  { intros [_ H]. revert H. apply Z.le_ngt. discriminate. }
  repeat (split; [ first [ reflexivity | exact W ] | ]).
  apply (monitor_waits_if_value_wider_than_read 128 3 example_wide_cond
           1000 example_state); first [ reflexivity | exact W ].
Defined.

Lemma wakeup_after_monitor_touches_nothing_witness :
  wait_supported example_state = true /\
  (3 < 128)%N /\
  __check_val_size (data_sz example_cond) = 0 /\
  lock_free 3 example_state /\
  exists s' tr,
    run 3 (rte_power_monitor 128 (Some example_cond) 1000) example_state =
      Done 0 s' tr /\
    run 5 (rte_power_monitor_wakeup 128 3) s' =
    Done 0 s'
      [Ev load_wait_supported true; Ev (rte_spinlock_lock 3) tt;
       Ev (load_monitor_addr 3) 0; Ev (rte_spinlock_unlock 3) tt].
Proof.
  repeat (split; [ reflexivity | ]).
  apply (wakeup_after_monitor_touches_nothing 128 3 5 example_cond 1000
           example_state); reflexivity.
Defined.

Lemma example_threads_distinct : one_thread_per_lcore 128 example_threads.
Proof.
  intros [ | [ | t]] [ | [ | u]] th1 th2 H1 H2 Ne _; try easy;
    injection H1 as <-; injection H2 as <-; discriminate.
Qed.

Lemma example_sys_idle : sys_idle example_sys.
Proof.
  split.
  - apply Forall_forall. intros w Hw.
    apply elem_of_replicate in Hw as [-> _]. reflexivity.
  - repeat constructor; simpl; eauto.
Qed.

Lemma example_locks_free : locks_free (fst example_sys).
Proof.
  apply Forall_forall. intros w Hw.
  apply elem_of_replicate in Hw as [-> _]. reflexivity.
Qed.

Lemma example_reach :
  sys_reach 128 example_sys example_wakeup_under_way.
Proof.
  apply (sys_run_reach 128 example_moves). vm_compute. reflexivity.
Qed.

(** In [example_wakeup_under_way] the call of lcore 3 has executed UMONITOR
    on 4096 and no UMWAIT: it has not returned, and its record holds
    4096. *)
Lemma monitor_addr_among_threads_witness :
  one_thread_per_lcore 128 (snd example_sys) /\
  sys_idle example_sys /\
  sys_reach 128 example_sys example_wakeup_under_way /\
  exists th,
    snd example_wakeup_under_way !! 0%nat = Some th /\
    monitor_armed (th_trace th) = Some 4096 /\
    returned (th_prog th) = None /\
    monitor_addr <$>
      wait_status (fst example_wakeup_under_way) !! N.to_nat (th_lcore th)
      = Some 4096.
Proof.
  split; [ exact example_threads_distinct | ].
  split; [ exact example_sys_idle | ]. split; [ exact example_reach | ].
  eexists. split; [ reflexivity | ]. split; [ reflexivity | ].
  destruct (monitor_addr_among_threads 128 example_sys
              example_wakeup_under_way 0 _ example_threads_distinct
              example_sys_idle example_reach eq_refl)
    as (A & _).
  destruct (A 4096 eq_refl) as (_ & _ & P). exact (P eq_refl).
Defined.

Lemma threads_follow_lock_discipline_witness :
  sys_idle example_sys /\
  sys_reach 128 example_sys example_wakeup_under_way /\
  exists th,
    snd example_wakeup_under_way !! 1%nat = Some th /\
    view_of (th_trace th) = View (Some 3%nat) (Some 4096) /\
    allowed (view_of (th_trace th)) _
      (atomic_compare_exchange_n 4096 1 1) = true.
Proof.
  split; [ exact example_sys_idle | ]. split; [ exact example_reach | ].
  eexists. split; [ reflexivity | ]. split; [ reflexivity | ].
  eapply (threads_follow_lock_discipline 128 example_sys
            example_wakeup_under_way 1 _ example_sys_idle example_reach
            eq_refl).
  reflexivity.
Defined.

Lemma spinlock_excludes_threads_witness :
  sys_idle example_sys /\
  sys_reach 128 example_sys example_wakeup_under_way /\
  exists th,
    snd example_wakeup_under_way !! 1%nat = Some th /\
    held (view_of (th_trace th)) = Some 3%nat /\
    lock <$> wait_status (fst example_wakeup_under_way) !! 3%nat
      = Some true /\
    monitor_addr <$> wait_status (fst example_wakeup_under_way) !! 3%nat
      = Some 4096.
Proof.
  split; [ exact example_sys_idle | ]. split; [ exact example_reach | ].
  eexists. split; [ reflexivity | ]. split; [ reflexivity | ].
  destruct (spinlock_excludes_threads 128 example_sys
              example_wakeup_under_way 1 _ 3 example_sys_idle example_reach
              eq_refl eq_refl) as (L & _ & S).
  split; [ exact L | ]. apply S. reflexivity.
Defined.

Lemma wakeup_touches_monitored_address_witness :
  one_thread_per_lcore 128 (snd example_sys) /\
  sys_idle example_sys /\
  sys_reach 128 example_sys example_wakeup_under_way /\
  exists th k,
    snd example_wakeup_under_way !! 1%nat = Some th /\
    th_prog th = Vis (atomic_compare_exchange_n 4096 1 1) k /\
    exists u thu c tsc,
      u <> 1%nat /\ snd example_wakeup_under_way !! u = Some thu /\
      th_call thu = Monitor (Some c) tsc /\ addr c = 4096 /\
      count_stores (th_trace thu) = 1%nat.
Proof.
  split; [ exact example_threads_distinct | ].
  split; [ exact example_sys_idle | ]. split; [ exact example_reach | ].
  eexists _, _. split; [ reflexivity | ]. split; [ reflexivity | ].
  destruct (wakeup_touches_monitored_address 128 example_sys
              example_wakeup_under_way 1 _ _ _ _ 4096
              example_threads_distinct example_sys_idle example_reach
              eq_refl eq_refl eq_refl)
    as (_ & _ & i & u & thu & c & tsc & _ & _ & Ne & Hu & _ & Ec & Ea & C1).
  exists u, thu, c, tsc. repeat split; assumption.
Defined.

Lemma threads_keep_memory_witness :
  sys_idle example_sys /\
  sys_reach 128 example_sys example_wakeup_under_way /\
  exists th c',
    snd example_wakeup_under_way !! 1%nat = Some th /\
    step (th_lcore th)
      (Cfg (th_prog th) (fst example_wakeup_under_way) (th_trace th))
      = Some c' /\
    same_memory (fst example_wakeup_under_way) (cfg_state c').
Proof.
  split; [ exact example_sys_idle | ]. split; [ exact example_reach | ].
  eexists _, _. split; [ reflexivity | ]. split; [ reflexivity | ].
  apply (threads_keep_memory 128 example_sys example_wakeup_under_way 1 _ _
           example_sys_idle example_reach eq_refl eq_refl).
Defined.

Lemma threads_never_abort_witness :
  table_ok 128 (fst example_sys) /\
  sys_idle example_sys /\
  sys_reach 128 example_sys example_wakeup_under_way /\
  exists th k,
    snd example_wakeup_under_way !! 0%nat = Some th /\
    th_prog th = Vis (rte_spinlock_lock 3) k /\
    exec (th_lcore th) (rte_spinlock_lock 3) (fst example_wakeup_under_way)
      <> Abort.
Proof.
  split; [ reflexivity | ].
  split; [ exact example_sys_idle | ]. split; [ exact example_reach | ].
  eexists _, _. split; [ reflexivity | ]. split; [ reflexivity | ].
  apply (threads_never_abort 128 example_sys example_wakeup_under_way 0 _ _
           _ _ eq_refl example_sys_idle example_reach eq_refl eq_refl).
Defined.

Lemma some_thread_can_step_witness :
  table_ok 128 (fst example_sys) /\
  locks_free (fst example_sys) /\
  sys_idle example_sys /\
  sys_reach 128 example_sys example_wakeup_under_way /\
  exists th,
    snd example_wakeup_under_way !! 0%nat = Some th /\
    returned (th_prog th) = None /\
    step (th_lcore th)
      (Cfg (th_prog th) (fst example_wakeup_under_way) (th_trace th))
      = None /\
    exists u thu,
      u <> 0%nat /\ snd example_wakeup_under_way !! u = Some thu /\
      held (view_of (th_trace thu)) = Some 3%nat /\
      can_step (fst example_wakeup_under_way) thu.
Proof.
  split; [ reflexivity | ]. split; [ exact example_locks_free | ].
  split; [ exact example_sys_idle | ]. split; [ exact example_reach | ].
  eexists. split; [ reflexivity | ]. split; [ reflexivity | ].
  split; [ reflexivity | ].
  destruct (some_thread_can_step 128 example_sys example_wakeup_under_way
              0 _ eq_refl example_locks_free example_sys_idle example_reach
              eq_refl eq_refl)
    as [[c' C] | (i & k & u & thu & P & Ne & Hu & Hh & C)].
  - discriminate C.
  - injection P as <-. exists u, thu. repeat split; assumption.
Defined.

Lemma example_reach_sleep :
  sys_reach 128 example_sys example_about_to_sleep.
Proof.
  apply (sys_run_reach 128 example_sleep_moves). vm_compute. reflexivity.
Qed.

Lemma thread_sleeps_published_witness :
  one_thread_per_lcore 128 (snd example_sys) /\
  sys_idle example_sys /\
  sys_reach 128 example_sys example_about_to_sleep /\
  exists th k,
    snd example_about_to_sleep !! 0%nat = Some th /\
    th_prog th = Vis (umwait 0 1000 0) k /\
    monitor_armed (th_trace th) = Some 4096 /\
    monitor_addr <$> wait_status (fst example_about_to_sleep) !! 3%nat
      = Some 4096.
Proof.
  split; [ exact example_threads_distinct | ].
  split; [ exact example_sys_idle | ].
  split; [ exact example_reach_sleep | ].
  eexists _, _. split; [ reflexivity | ]. split; [ reflexivity | ].
  destruct (thread_sleeps_published 128 example_sys example_about_to_sleep
              0 _ _ _ _ _ example_threads_distinct example_sys_idle
              example_reach_sleep eq_refl eq_refl)
    as (c & tsc & Ec & Ea & Er).
  injection Ec as <- _. split; [ exact Ea | exact Er ].
Defined.
